(** * The IP pool admission validator of the Harvester load balancer

    A shallow embedding of [pkg/webhook/ippool/validator.go]: the three
    admission entry points [Create], [Update] and [Delete] and the checks
    they run ([checkRange], [checkAllocated], [checkSelector] and its
    three helpers), followed by the properties the specification states
    about them.

    Go values are modelled as follows.
    - [string] is [string]; [uint32] is [N] (the validator only compares
      priorities); a slice is a [list]; a [map[string]string] is a
      [gmap string string].
    - A function returning only [error] returns [option error], [None]
      being Go's [nil].
    - A method that reads the pool cache runs in the monad [M], which
      records every [List] call next to the result.
    - Packages of the imports are modules of the same name. *)

From Stdlib Require Import ZArith NArith Ascii String List Bool Lia.
From stdpp Require Import base gmap strings list fin_maps.

Local Open Scope string_scope.
Local Open Scope Z_scope.

(** ** [net]: addresses *)

Module net.
(** An address is the number its bytes spell out; the range model only
    compares addresses. *)
Definition IP : Type := Z.
End net.

(** ** [lbv1]: the resource types of the API group *)

Module lbv1.

(** A range descriptor of the pool spec.  The validator only takes the
    length of the list of descriptors and hands the list to
    [LBRangesToAllocatorRangeSet]. *)
Record Range : Type := mkRange {
  Subnet : string;
  RangeStart : string;
  RangeEnd : string;
  Gateway : string
}.

Record Tuple : Type := mkTuple {
  Project : string;
  Namespace : string;
  GuestCluster : string
}.

Record Selector : Type := mkSelector {
  Priority : N;
  Network : string;
  Scope : list Tuple
}.

Record IPPoolSpec : Type := mkIPPoolSpec {
  Ranges : list Range;
  SpecSelector : Selector      (* the field [Selector] of [IPPoolSpec] *)
}.

Record IPPoolStatus : Type := mkIPPoolStatus {
  Allocated : gmap string string
}.

(** [DeletionTimestamp] is a pointer: [None] is [nil]. *)
Record IPPool : Type := mkIPPool {
  Name : string;
  Labels : gmap string string;
  DeletionTimestamp : option Z;
  Spec : IPPoolSpec;
  Status : IPPoolStatus
}.

End lbv1.

(** ** [allocator]: the range model

    [allocator.Range] and [allocator.RangeSet] belong to the imported
    host-local IPAM backend.  They are modelled on the Range Model of the
    specification: an address range is a pair [{start, end}], a range
    set is a sequence of ranges, and both support an overlap and a
    containment test.  The tests are written the way the backend writes
    them: a range contains an address between its two ends, and two
    ranges overlap when one of them contains an end of the other. *)

Module allocator.

Record Range : Type := mkRange {
  RangeStart : net.IP;
  RangeEnd : net.IP
}.

Definition RangeSet : Type := list Range.

Definition Range_Contains (r : Range) (addr : net.IP) : bool :=
  (RangeStart r <=? addr) && (addr <=? RangeEnd r).

Definition Range_Overlaps (r r1 : Range) : bool :=
  Range_Contains r (RangeStart r1) ||
  Range_Contains r (RangeEnd r1) ||
  Range_Contains r1 (RangeStart r) ||
  Range_Contains r1 (RangeEnd r).

(** [RangeSet.Overlaps]: some range of [s] overlaps some range of [p1]. *)
Definition Overlaps (s p1 : RangeSet) : bool :=
  existsb (fun r => existsb (fun r1 => Range_Overlaps r r1) p1) s.

(** [RangeSet.Contains]: some range of [s] contains [addr]. *)
Definition Contains (s : RangeSet) (addr : net.IP) : bool :=
  existsb (fun r => Range_Contains r addr) s.

(** The invariant of the data model: [start <= end]. *)
Definition wf (r : Range) : Prop := RangeStart r <= RangeEnd r.

(** Two ranges share an address. *)
Definition share (r r1 : Range) : Prop :=
  exists a : net.IP, Range_Contains r a = true /\ Range_Contains r1 a = true.

(** Two range sets are disjoint: no address lies in both. *)
Definition disjoint (s p1 : RangeSet) : Prop :=
  forall a : net.IP, Contains s a = true -> Contains p1 a = true -> False.

End allocator.

(** ** [labels]: label selectors *)

Module labels.

(** [Everything ()] and [Set (m).AsSelector ()]. *)
Inductive Selector : Type :=
| Everything
| SetSelector (m : gmap string string).

(** A set selector selects the objects whose labels carry every
    key of the set with the value the set gives it. *)
Definition Matches (sel : Selector) (lbls : gmap string string) : bool :=
  match sel with
  | Everything => true
  | SetSelector m => bool_decide (m ⊆ lbls)
  end.

End labels.

(** ** [ipam]: requirements and the selector matcher *)

Module ipam.

Record Requirement : Type := mkRequirement {
  Network : string;
  Project : string;
  Namespace : string;
  Cluster : string
}.

(** [type Matcher lbv1.Selector] *)
Definition Matcher : Type := lbv1.Selector.
Definition NewMatcher (s : lbv1.Selector) : Matcher := s.

(** An empty dimension of a scope entry is a wildcard; a non-empty one
    must equal the requirement's value. *)
Definition dimMatches (d v : string) : bool :=
  (d =? EmptyString)%string || (d =? v)%string.

Definition tupleMatches (t : lbv1.Tuple) (r : Requirement) : bool :=
  dimMatches (lbv1.Project t) (Project r) &&
  dimMatches (lbv1.Namespace t) (Namespace r) &&
  dimMatches (lbv1.GuestCluster t) (Cluster r).

(** Modelled from the spec: the method [Matches] of [ipam.Matcher], whose
    file is not part of the sources.  "A selector matches a requirement
    iff the selector's network equals the requirement's network (when
    the selector's network is non-empty) AND at least one entry in the
    selector's scope matches the requirement on every non-empty
    dimension of that entry (project/namespace/cluster) [...].  Matching
    is existential over scope entries, not universal."  A selector
    without scope entries therefore matches nothing: the sentence's
    further clause, that an empty scope list matches, is not taken over,
    because [checkSelectorItself] tests the last entry of every scope
    list against a selector whose scope it leaves empty, and the
    specification's examples admit pools with a single scope entry. *)
Definition Matches (m : Matcher) (r : Requirement) : bool :=
  ((lbv1.Network m =? EmptyString)%string || (lbv1.Network m =? Network r)%string) &&
  existsb (fun t => tupleMatches t r) (lbv1.Scope m).

End ipam.

(** ** Errors

    One constructor per message the validator formats; the arguments are
    the values the message prints. *)

Inductive error : Type :=
| ExternalError (msg : string)
    (* an error value handed back by a collaborator: the cache listing
       or the conversion of range descriptors (RangeParseError) *)
| EmptyRangeError
    (* "range can't be empty" *)
| CreateError (name : string) (cause : error)
    (* createErr, pool.Name, err *)
| UpdateError (name : string) (cause : error)
    (* updateErr, pool.Name, err *)
| NonEmptyPoolDeletionError
    (* "can't delete pool before releasing all the allocated IP" *)
| RangeOverlapError (r1 r2 : allocator.Range)
    (* "there are overlaps between range %+v and %+v" *)
| RangeSetOverlapError (r : allocator.RangeSet)
    (* "the ranges %+v overlap with other pools" *)
| InvalidAddressError (ipStr : string)
    (* "invalid ip string %s" *)
| AllocatedAddressExcludedError (ipStr : string)
    (* "allocated IP %s is excluded" *)
| InvalidSelectorError (s : lbv1.Selector) (cause : error)
    (* "selector %+v is invalid: %w" *)
| SelfScopeOverlapError
    (* "scope overlaps" *)
| DuplicateGlobalPoolError (name : string)
    (* "there is already a global IP pool: %s" *)
| DuplicatePriorityError (name : string)
    (* "the priority can't be the same as the pool %s" *)
| ScopeOverlapError (name project namespace cluster : string).
    (* "scope selector is same as the pool %s with priority 0 Project %v
       Namespace %v GuestCluster %v, set a different priority or scope" *)

(** A value together with an error, of which Go sets one. *)
Inductive result (A : Type) : Type :=
| Ok (a : A)
| Err (e : error).
Arguments Ok {A} a.
Arguments Err {A} e.

(** ** What the validator takes from its surroundings

    Constants and functions of packages whose files are not part of the
    sources, and a choice Go leaves to the runtime.  The embedding is
    parametric in them. *)

Class Externals : Type := {
  (** [admission.Request]; the validator never looks inside. *)
  Request : Type;
  (** [utils.KeyGlobalIPPool] and [utils.ValueTrue]: the label that marks
      the global pool. *)
  KeyGlobalIPPool : string;
  ValueTrue : string;
  (** [net.ParseIP]; [None] is the [nil] address of an unparsable string. *)
  ParseIP : string -> option net.IP;
  (** [ipam.LBRangesToAllocatorRangeSet]: the parsing boundary that turns
      range descriptors into a range set, or fails. *)
  LBRangesToAllocatorRangeSet : list lbv1.Range -> result allocator.RangeSet;
  (** The order in which a [for ... range] statement visits the keys of a
      map.  Go leaves it unspecified; it is some enumeration of the keys. *)
  mapKeys : gmap string string -> list string
}.

(** [keys] lists the keys of [m], each once, in some order. *)
Definition enumerates (keys : list string) (m : gmap string string) : Prop :=
  keys ≡ₚ (map_to_list m).*1.

(** ** The pool cache and the monad of cache reads *)

(** The pools the cache holds, in the order a listing returns them, and
    the error with which a listing fails, if it does. *)
Record IPPoolCache : Type := mkIPPoolCache {
  stored : list lbv1.IPPool;
  listError : option error
}.

Record ipPoolValidator : Type := mkValidator {
  ipPoolCache : IPPoolCache
}.

(** A computation that may list the cache: the selectors of the listings
    made, in order, and the outcome. *)
Definition M (A : Type) : Type := list labels.Selector * result A.

Definition ret {A : Type} (a : A) : M A := ([], Ok a).

Definition fail {A : Type} (e : error) : M A := ([], Err e).

Definition bind {A B : Type} (m : M A) (f : A -> M B) : M B :=
  match m with
  | (reads, Err e) => (reads, Err e)
  | (reads, Ok a) => let '(reads', r) := f a in ((reads ++ reads')%list, r)
  end.

#[global] Instance M_ret : MRet M := @ret.
#[global] Instance M_bind : MBind M := fun A B f m => bind m f.

(** [if err != nil { return fmt.Errorf(wrapper, ..., err) }] *)
Definition wrapping {A : Type} (w : error -> error) (m : M A) : M A :=
  match m with
  | (reads, Err e) => (reads, Err (w e))
  | (reads, Ok a) => (reads, Ok a)
  end.

(** A step that does not touch the cache. *)
Definition pure {A : Type} (r : result A) : M A := ([], r).

Definition check (o : option error) : M unit :=
  match o with
  | Some e => fail e
  | None => ret tt
  end.

Definition reads {A : Type} (m : M A) : list labels.Selector := fst m.
Definition outcome {A : Type} (m : M A) : result A := snd m.

(** [ipPoolCache.List (selector)] *)
Definition List (c : IPPoolCache) (sel : labels.Selector) : M (list lbv1.IPPool) :=
  ([sel],
   match listError c with
   | Some e => Err e
   | None => Ok (filter (fun p => labels.Matches sel (lbv1.Labels p) = true) (stored c))
   end).

(** ** The validator *)

Section Validator.

Context `{E : Externals}.

(** Modelled from the spec: [isGlobalIPPool], declared in a file of the
    package that is not part of the sources.  "GlobalPoolMarker: a
    boolean-valued label on a Pool indicating it is the cluster-wide
    default pool"; the label is the one [checkGlobalIPPool] lists by. *)
Definition isGlobalIPPool (pool : lbv1.IPPool) : bool :=
  bool_decide (lbv1.Labels pool !! KeyGlobalIPPool = Some ValueTrue).

(** *** [checkRange] *)

(** The inner loop: [r1] against the ranges after it. *)
Fixpoint checkRangeAgainst (r1 : allocator.Range) (later : list allocator.Range)
  : option error :=
  match later with
  | [] => None
  | r2 :: later' =>
      if allocator.Range_Overlaps r1 r2 then Some (RangeOverlapError r1 r2)
      else checkRangeAgainst r1 later'
  end.

(** The outer loop; [later] is [r[i+1:]]. *)
Fixpoint checkRangeItself (r : list allocator.Range) : option error :=
  match r with
  | [] => None
  | r1 :: later =>
      match checkRangeAgainst r1 later with
      | Some e => Some e
      | None => checkRangeItself later
      end
  end.

(** The second loop: the whole set against each other set. *)
Fixpoint checkRangeOthers (r : allocator.RangeSet) (others : list allocator.RangeSet)
  : option error :=
  match others with
  | [] => None
  | o :: others' =>
      if allocator.Overlaps r o then Some (RangeSetOverlapError r)
      else checkRangeOthers r others'
  end.

Definition checkRange (r : allocator.RangeSet) (others : list allocator.RangeSet)
  : option error :=
  match checkRangeItself r with
  | Some e => Some e
  | None => checkRangeOthers r others
  end.

(** *** [checkAllocated] *)

(** The loop over the keys of [allocated], in the order [keys]. *)
Fixpoint checkAllocatedIn (rs : allocator.RangeSet) (keys : list string)
  : option error :=
  match keys with
  | [] => None
  | ipStr :: keys' =>
      match ParseIP ipStr with
      | None => Some (InvalidAddressError ipStr)
      | Some ip =>
          if negb (allocator.Contains rs ip)
          then Some (AllocatedAddressExcludedError ipStr)
          else checkAllocatedIn rs keys'
      end
  end.

Definition checkAllocated (rs : allocator.RangeSet) (allocated : gmap string string)
  : option error :=
  checkAllocatedIn rs (mapKeys allocated).

(** *** [getOtherPoolsRanges] *)

Fixpoint appendOtherRanges (myName : string) (pools : list lbv1.IPPool)
    (rangSets : list allocator.RangeSet) : result (list allocator.RangeSet) :=
  match pools with
  | [] => Ok rangSets
  | p :: pools' =>
      if negb (lbv1.Name p =? myName)%string then
        match LBRangesToAllocatorRangeSet (lbv1.Ranges (lbv1.Spec p)) with
        | Err e => Err e
        | Ok r => appendOtherRanges myName pools' (rangSets ++ [r])
        end
      else appendOtherRanges myName pools' rangSets
  end.

Definition getOtherPoolsRanges (i : ipPoolValidator) (myName : string)
  : M (list allocator.RangeSet) :=
  pools ← List (ipPoolCache i) labels.Everything;
  if (length pools =? 0)%nat then ret []
  else pure (appendOtherRanges myName pools []).

(** *** [checkGlobalIPPool] *)

Fixpoint firstOtherPool (pool : lbv1.IPPool) (pools : list lbv1.IPPool)
  : option error :=
  match pools with
  | [] => None
  | p :: pools' =>
      if (lbv1.Name p =? lbv1.Name pool)%string then firstOtherPool pool pools'
      else Some (DuplicateGlobalPoolError (lbv1.Name p))
  end.

Definition checkGlobalIPPool (i : ipPoolValidator) (pool : lbv1.IPPool) : M unit :=
  pools ← List (ipPoolCache i) (labels.SetSelector {[ KeyGlobalIPPool := ValueTrue ]});
  check (firstOtherPool pool pools).

(** *** [checkSelectorItself] *)

(** The requirement [r] after the three assignments of a loop body. *)
Definition requirementOf (network : string) (t : lbv1.Tuple) : ipam.Requirement :=
  {| ipam.Network := network;
     ipam.Project := lbv1.Project t;
     ipam.Namespace := lbv1.Namespace t;
     ipam.Cluster := lbv1.GuestCluster t |}.

(** The selector [s] of iteration [i]: the later entries, unless [i] is
    the last index. *)
Definition laterSelector (pool : lbv1.IPPool) (i : nat) : lbv1.Selector :=
  let sel := lbv1.SpecSelector (lbv1.Spec pool) in
  let lenOfSelectorScope := Z.of_nat (length (lbv1.Scope sel)) in
  {| lbv1.Priority := lbv1.Priority sel;
     lbv1.Network := lbv1.Network sel;
     lbv1.Scope :=
       if negb (Z.of_nat i =? lenOfSelectorScope - 1)
       then drop (i + 1) (lbv1.Scope sel)
       else [] |}.

(** The loop from index [i] on; [ts] is what is left of the scope. *)
Fixpoint checkSelectorItselfFrom (pool : lbv1.IPPool) (i : nat) (ts : list lbv1.Tuple)
  : option error :=
  match ts with
  | [] => None
  | t :: ts' =>
      let r := requirementOf (lbv1.Network (lbv1.SpecSelector (lbv1.Spec pool))) t in
      if ipam.Matches (ipam.NewMatcher (laterSelector pool i)) r
      then Some SelfScopeOverlapError
      else checkSelectorItselfFrom pool (S i) ts'
  end.

Definition checkSelectorItself (pool : lbv1.IPPool) : option error :=
  checkSelectorItselfFrom pool 0 (lbv1.Scope (lbv1.SpecSelector (lbv1.Spec pool))).

(** *** [checkSelectorWithOthers] *)

(** The inner loop: the scope entries of [pool] against the selector of [p]. *)
Fixpoint checkScopeAgainst (pool p : lbv1.IPPool) (ts : list lbv1.Tuple)
  : option error :=
  match ts with
  | [] => None
  | t :: ts' =>
      let r := requirementOf (lbv1.Network (lbv1.SpecSelector (lbv1.Spec pool))) t in
      if ipam.Matches (ipam.NewMatcher (lbv1.SpecSelector (lbv1.Spec p))) r
      then Some (ScopeOverlapError (lbv1.Name p) (lbv1.Project t)
                   (lbv1.Namespace t) (lbv1.GuestCluster t))
      else checkScopeAgainst pool p ts'
  end.

(** One iteration of the outer loop; [None] goes on to the next pool. *)
Definition checkSelectorWith (pool p : lbv1.IPPool) : option error :=
  let prio := lbv1.Priority (lbv1.SpecSelector (lbv1.Spec pool)) in
  let prioP := lbv1.Priority (lbv1.SpecSelector (lbv1.Spec p)) in
  if (lbv1.Name p =? lbv1.Name pool)%string || isGlobalIPPool p then None
  else if negb (prioP =? 0)%N && (prioP =? prio)%N
  then Some (DuplicatePriorityError (lbv1.Name p))
  else if (prioP =? 0)%N && (prio =? 0)%N
  then checkScopeAgainst pool p (lbv1.Scope (lbv1.SpecSelector (lbv1.Spec pool)))
  else None.

Fixpoint checkSelectorWithEach (pool : lbv1.IPPool) (pools : list lbv1.IPPool)
  : option error :=
  match pools with
  | [] => None
  | p :: pools' =>
      match checkSelectorWith pool p with
      | Some e => Some e
      | None => checkSelectorWithEach pool pools'
      end
  end.

Definition checkSelectorWithOthers (i : ipPoolValidator) (pool : lbv1.IPPool) : M unit :=
  pools ← List (ipPoolCache i) labels.Everything;
  check (checkSelectorWithEach pool pools).

(** *** [checkSelector] *)

Definition checkSelector (i : ipPoolValidator) (pool : lbv1.IPPool) : M unit :=
  if isGlobalIPPool pool then checkGlobalIPPool i pool
  else
    match checkSelectorItself pool with
    | Some err => fail (InvalidSelectorError (lbv1.SpecSelector (lbv1.Spec pool)) err)
    | None => checkSelectorWithOthers i pool
    end.

(** *** [Create], [Update], [Delete] *)

Definition Create (i : ipPoolValidator) (_ : Request) (newObj : lbv1.IPPool) : M unit :=
  let pool := newObj in
  let createErr := CreateError (lbv1.Name pool) in
  if (length (lbv1.Ranges (lbv1.Spec pool)) =? 0)%nat
  then fail (createErr EmptyRangeError)
  else
    rs ← wrapping createErr (pure (LBRangesToAllocatorRangeSet (lbv1.Ranges (lbv1.Spec pool))));
    others ← wrapping createErr (getOtherPoolsRanges i (lbv1.Name pool));
    _ ← wrapping createErr (check (checkRange rs others));
    _ ← wrapping createErr (checkSelector i pool);
    ret tt.

Definition Update (i : ipPoolValidator) (_ : Request) (_ newObj : lbv1.IPPool) : M unit :=
  let pool := newObj in
  let updateErr := UpdateError (lbv1.Name pool) in
  if bool_decide (lbv1.DeletionTimestamp pool ≠ None) then ret tt
  else if (length (lbv1.Ranges (lbv1.Spec pool)) =? 0)%nat
  then fail (updateErr EmptyRangeError)
  else
    rs ← wrapping updateErr (pure (LBRangesToAllocatorRangeSet (lbv1.Ranges (lbv1.Spec pool))));
    others ← wrapping updateErr (getOtherPoolsRanges i (lbv1.Name pool));
    _ ← wrapping updateErr (check (checkRange rs others));
    _ ← wrapping updateErr (check (checkAllocated rs (lbv1.Allocated (lbv1.Status pool))));
    _ ← wrapping updateErr (checkSelector i pool);
    ret tt.

Definition Delete (i : ipPoolValidator) (_ : Request) (oldObj : lbv1.IPPool) : M unit :=
  let pool := oldObj in
  if negb (size (lbv1.Allocated (lbv1.Status pool)) =? 0)%nat
  then fail NonEmptyPoolDeletionError
  else ret tt.

(** *** [NewIPPoolValidator] *)

Definition NewIPPoolValidator (cache : IPPoolCache) : ipPoolValidator :=
  {| ipPoolCache := cache |}.

End Validator.

(** ** The vocabulary of the specification *)

Section Vocabulary.

Context `{E : Externals}.

Definition priorityOf (p : lbv1.IPPool) : N :=
  lbv1.Priority (lbv1.SpecSelector (lbv1.Spec p)).

Definition networkOf (p : lbv1.IPPool) : string :=
  lbv1.Network (lbv1.SpecSelector (lbv1.Spec p)).

Definition scopeOf (p : lbv1.IPPool) : list lbv1.Tuple :=
  lbv1.Scope (lbv1.SpecSelector (lbv1.Spec p)).

(** An allocated address string parses and the address lies in [rs]. *)
Definition allocatedInside (rs : allocator.RangeSet) (ipStr : string) : Prop :=
  exists ip : net.IP, ParseIP ipStr = Some ip /\ allocator.Contains rs ip = true.

(** [p] is a stored pool the cross-pool check compares [pool] with:
    another pool, not marked global. *)
Definition comparedWith (pool p : lbv1.IPPool) : Prop :=
  lbv1.Name p <> lbv1.Name pool /\ isGlobalIPPool p = false.

(** The scope entry [t] of [pool], taken as a requirement with the
    network of [pool], is matched by the selector of [p]. *)
Definition entryMatchedBy (pool p : lbv1.IPPool) (t : lbv1.Tuple) : bool :=
  ipam.Matches (ipam.NewMatcher (lbv1.SpecSelector (lbv1.Spec p)))
    (requirementOf (networkOf pool) t).

(** Some scope entry of [pool] is matched by the selector of [p]. *)
Definition scopeMatchedBy (pool p : lbv1.IPPool) : Prop :=
  exists t : lbv1.Tuple, t ∈ scopeOf pool /\ entryMatchedBy pool p t = true.




End Vocabulary.

Section Repository.

Context `{E : Externals}.

(** No two ranges at distinct positions of a range set share an address. *)
Definition pairwiseApart (r : allocator.RangeSet) : Prop :=
  forall (i j : nat) (r1 r2 : allocator.Range),
    i <> j -> r !! i = Some r1 -> r !! j = Some r2 -> ~ allocator.share r1 r2.

(** The selector [checkGlobalIPPool] lists by. *)
Definition globalSelector : labels.Selector :=
  labels.SetSelector {[ KeyGlobalIPPool := ValueTrue ]}.

(** The cache without the pools called [name]. *)
Definition withoutPool (name : string) (c : IPPoolCache) : IPPoolCache :=
  {| stored := filter (fun p => lbv1.Name p <> name) (stored c);
     listError := listError c |}.

(** The cache without the pools marked global. *)
Definition withoutGlobal (c : IPPoolCache) : IPPoolCache :=
  {| stored := filter (fun p => isGlobalIPPool p = false) (stored c);
     listError := listError c |}.

(** The range descriptors of the pool [p] convert to the range set [rs]. *)
Definition convertsTo (p : lbv1.IPPool) (rs : allocator.RangeSet) : Prop :=
  LBRangesToAllocatorRangeSet (lbv1.Ranges (lbv1.Spec p)) = Ok rs.

End Repository.

(** ** A concrete setting

    One instance of the surroundings, on which the embedding runs: IPv4
    addresses in dotted decimal, descriptors that give both ends of the
    range, and maps visited in the order of [map_to_list].  The examples
    and the instances of the theorems below are computed in it. *)

Module sample.

Definition digitOf (c : ascii) : option Z :=
  let n := Z.of_nat (nat_of_ascii c) in
  if (48 <=? n) && (n <=? 57) then Some (n - 48) else None.

(** [octets] are the octets read so far, [cur] the one being read. *)
Fixpoint parseOctets (s : string) (octets : list Z) (cur : option Z)
  : option (list Z) :=
  match s with
  | EmptyString =>
      match cur with
      | Some v => Some (octets ++ [v])%list
      | None => None
      end
  | String c s' =>
      if Ascii.eqb c "."%char then
        match cur with
        | Some v => parseOctets s' (octets ++ [v])%list None
        | None => None
        end
      else
        match digitOf c with
        | None => None
        | Some d =>
            let v := 10 * default 0 cur + d in
            if v <=? 255 then parseOctets s' octets (Some v) else None
        end
  end.

Definition parseIPv4 (s : string) : option net.IP :=
  match parseOctets s [] None with
  | Some [a; b; c; d] => Some (((a * 256 + b) * 256 + c) * 256 + d)
  | _ => None
  end.

Definition toRange (r : lbv1.Range) : result allocator.Range :=
  match parseIPv4 (lbv1.RangeStart r), parseIPv4 (lbv1.RangeEnd r) with
  | Some s, Some e =>
      if s <=? e then Ok (allocator.mkRange s e)
      else Err (ExternalError "range end before range start")
  | _, _ => Err (ExternalError "invalid range")
  end.

Fixpoint toRangeSet (rs : list lbv1.Range) : result allocator.RangeSet :=
  match rs with
  | [] => Ok []
  | r :: rs' =>
      match toRange r, toRangeSet rs' with
      | Ok a, Ok s => Ok (a :: s)
      | Err e, _ => Err e
      | _, Err e => Err e
      end
  end.

#[export] Instance env : Externals := {|
  Request := unit;
  KeyGlobalIPPool := "loadbalancer.harvesterhci.io/global-ip-pool";
  ValueTrue := "true";
  ParseIP := parseIPv4;
  LBRangesToAllocatorRangeSet := toRangeSet;
  mapKeys := fun m => (map_to_list m).*1
|}.

Definition range (s e : string) : lbv1.Range :=
  {| lbv1.Subnet := EmptyString; lbv1.RangeStart := s;
     lbv1.RangeEnd := e; lbv1.Gateway := EmptyString |}.

Definition scoped (priority : N) (scope : list lbv1.Tuple) : lbv1.Selector :=
  {| lbv1.Priority := priority; lbv1.Network := "vlan1"; lbv1.Scope := scope |}.

Definition pool (name : string) (rs : list lbv1.Range) (sel : lbv1.Selector)
  : lbv1.IPPool :=
  {| lbv1.Name := name; lbv1.Labels := ∅; lbv1.DeletionTimestamp := None;
     lbv1.Spec := {| lbv1.Ranges := rs; lbv1.SpecSelector := sel |};
     lbv1.Status := {| lbv1.Allocated := ∅ |} |}.

Definition globalPool (name : string) (rs : list lbv1.Range) (sel : lbv1.Selector)
  : lbv1.IPPool :=
  {| lbv1.Name := name; lbv1.Labels := {[ KeyGlobalIPPool := ValueTrue ]};
     lbv1.DeletionTimestamp := None;
     lbv1.Spec := {| lbv1.Ranges := rs; lbv1.SpecSelector := sel |};
     lbv1.Status := {| lbv1.Allocated := ∅ |} |}.

Definition withAllocated (allocated : gmap string string) (p : lbv1.IPPool)
  : lbv1.IPPool :=
  {| lbv1.Name := lbv1.Name p; lbv1.Labels := lbv1.Labels p;
     lbv1.DeletionTimestamp := lbv1.DeletionTimestamp p;
     lbv1.Spec := lbv1.Spec p;
     lbv1.Status := {| lbv1.Allocated := allocated |} |}.

Definition deleting (p : lbv1.IPPool) : lbv1.IPPool :=
  {| lbv1.Name := lbv1.Name p; lbv1.Labels := lbv1.Labels p;
     lbv1.DeletionTimestamp := Some 1;
     lbv1.Spec := lbv1.Spec p;
     lbv1.Status := lbv1.Status p |}.

Definition holding (pools : list lbv1.IPPool) : ipPoolValidator :=
  {| ipPoolCache := {| stored := pools; listError := None |} |}.

(** The pools of the examples of the specification. *)
Definition p1 : lbv1.Tuple := lbv1.mkTuple "p1" EmptyString EmptyString.
Definition p1ns1 : lbv1.Tuple := lbv1.mkTuple "p1" "ns1" EmptyString.
Definition p2 : lbv1.Tuple := lbv1.mkTuple "p2" EmptyString EmptyString.

Definition poolA : lbv1.IPPool :=
  pool "A" [range "10.0.0.1" "10.0.0.10"] (scoped 0 [p1]).
Definition poolB : lbv1.IPPool :=
  pool "B" [range "10.0.0.11" "10.0.0.20"] (scoped 0 [p1ns1]).
Definition poolU : lbv1.IPPool :=
  pool "U" [range "10.0.0.31" "10.0.0.40"] (scoped 0 []).

End sample.

(** * Properties *)

(** ** The monad *)

Lemma bind_ok {A B : Type} (tr : list labels.Selector) (a : A) (f : A -> M B) :
  bind (tr, Ok a) f = ((tr ++ reads (f a))%list, outcome (f a)).
Proof. unfold bind, reads, outcome. by destruct (f a). Qed.

Lemma bind_err {A B : Type} (tr : list labels.Selector) (e : error) (f : A -> M B) :
  bind (tr, Err e) f = (tr, Err e).
Proof. done. Qed.

Lemma wrapping_check_some (w : error -> error) (e : error) :
  wrapping w (check (Some e)) = ([], Err (w e)).
Proof. done. Qed.

Lemma wrapping_check_none (w : error -> error) :
  wrapping w (check None) = ([], Ok tt).
Proof. done. Qed.

Lemma outcome_check (o : option error) :
  outcome (check o) = match o with Some e => Err e | None => Ok tt end.
Proof. by destruct o. Qed.

Lemma reads_check (o : option error) : reads (check o) = [].
Proof. by destruct o. Qed.

Section Properties.

Context `{E : Externals}.

(** ** Delete *)

(** C7.  [Delete] returns an error exactly when the pool's allocated
    mapping is non-empty; the error is then the non-empty-pool-deletion
    error, and nothing but the mapping is looked at: neither the cache
    nor the pool's ranges, labels or selector. *)
Theorem Delete_iff_allocated (i : ipPoolValidator) (req : Request) (pool : lbv1.IPPool) :
  Delete i req pool =
    (if decide (lbv1.Allocated (lbv1.Status pool) = ∅)
     then ([], Ok tt) else ([], Err NonEmptyPoolDeletionError))
  /\ (outcome (Delete i req pool) = Err NonEmptyPoolDeletionError
      <-> lbv1.Allocated (lbv1.Status pool) <> ∅)
  /\ (outcome (Delete i req pool) = Ok tt
      <-> lbv1.Allocated (lbv1.Status pool) = ∅).
Proof.
  unfold Delete.
  destruct (decide (lbv1.Allocated (lbv1.Status pool) = ∅)) as [Hempty | Hne].
  - rewrite Hempty, map_size_empty. simpl. split; [done |].
    split; split; intros H; done.
  - assert (Hsz : size (lbv1.Allocated (lbv1.Status pool)) <> 0%nat)
      by (intros Hz; apply map_size_empty_iff in Hz; done).
    apply Nat.eqb_neq in Hsz. rewrite Hsz. simpl.
    split; [done |]. split; split; intros H; done.
Qed.

(** ** Update of a pool under deletion *)

(** C8.  When the deletion timestamp of the new pool is set, [Update]
    accepts and lists nothing from the cache, whatever the cache holds
    (even one whose listings fail) and whatever the pool's ranges,
    allocations and selector are. *)
Theorem Update_deleting_accepts (i : ipPoolValidator) (req : Request)
    (oldObj newObj : lbv1.IPPool) :
  lbv1.DeletionTimestamp newObj <> None ->
  Update i req oldObj newObj = ([], Ok tt).
Proof.
  intros Hdel. unfold Update.
  rewrite bool_decide_eq_true_2; done.
Qed.

(** ** The old object *)

(** C10.  [Update] does not look at the old object: for one validator
    (one state of the cache) and one new pool, any two old objects give
    the same verdict and the same cache reads, also under different
    requests.  The verdict is a function of the new pool and of what the
    cache lists. *)
Theorem Update_ignores_old (i : ipPoolValidator) (req : Request)
    (o1 o2 n : lbv1.IPPool) :
  Update i req o1 n = Update i req o2 n
  /\ (forall req' : Request, Update i req' o1 n = Update i req o2 n)
  /\ outcome (Update i req o1 n) = outcome (Update i req o2 n)
  /\ reads (Update i req o1 n) = reads (Update i req o2 n).
Proof.
  assert (Hsame : forall (r r' : Request) (o o' : lbv1.IPPool),
             Update i r o n = Update i r' o' n)
    by (intros r r' o o'; unfold Update; reflexivity).
  split; [apply Hsame |]. split; [intros req'; apply Hsame |].
  split; by rewrite (Hsame req req o1 o2).
Qed.

(** ** The order of the checks *)

Lemma length_eqb_0 {A : Type} (l : list A) :
  (length l =? 0)%nat = match l with [] => true | _ :: _ => false end.
Proof. by destruct l. Qed.

(** [Update] of a pool that is not being deleted and has ranges, once
    the ranges are converted and the other pools listed: the three
    checks in the order of the source, each one run only when the ones
    before it found nothing. *)
Lemma Update_checks (i : ipPoolValidator) (req : Request) (oldObj pool : lbv1.IPPool)
    (rs : allocator.RangeSet) (tr : list labels.Selector)
    (others : list allocator.RangeSet) :
  lbv1.DeletionTimestamp pool = None ->
  lbv1.Ranges (lbv1.Spec pool) <> [] ->
  LBRangesToAllocatorRangeSet (lbv1.Ranges (lbv1.Spec pool)) = Ok rs ->
  getOtherPoolsRanges i (lbv1.Name pool) = (tr, Ok others) ->
  Update i req oldObj pool =
    match checkRange rs others with
    | Some e => (tr, Err (UpdateError (lbv1.Name pool) e))
    | None =>
        match checkAllocated rs (lbv1.Allocated (lbv1.Status pool)) with
        | Some e => (tr, Err (UpdateError (lbv1.Name pool) e))
        | None =>
            ((tr ++ reads (checkSelector i pool))%list,
             match outcome (checkSelector i pool) with
             | Err e => Err (UpdateError (lbv1.Name pool) e)
             | Ok _ => Ok tt
             end)
        end
    end.
Proof.
  intros Hdel Hne Hconv Hothers. unfold Update.
  rewrite bool_decide_eq_false_2 by (rewrite Hdel; intros H; done).
  assert (Hlen : (length (lbv1.Ranges (lbv1.Spec pool)) =? 0)%nat = false)
    by (rewrite length_eqb_0; destruct (lbv1.Ranges (lbv1.Spec pool)); done).
  rewrite Hlen, Hconv, Hothers.
  unfold mbind, M_bind, pure, wrapping, reads, outcome. cbn [bind app].
  destruct (checkRange rs others) as [e |]; cbn; [by rewrite app_nil_r |].
  destruct (checkAllocated rs _) as [e |]; cbn; [by rewrite app_nil_r |].
  destruct (checkSelector i pool) as [tr' [[] | e]]; cbn; by rewrite ?app_nil_r.
Qed.

(** C9.  A pool without ranges is rejected with the empty-range error
    by [Create], and by [Update] unless the pool is being deleted, in
    both cases before anything is read from the cache and so before
    the overlap, allocation and selector checks.  On [Update] the
    error is that of the first failing check in the order overlap
    checker, allocation checker, conflict resolver. *)
Theorem empty_ranges_first_then_checks_in_order
    (i : ipPoolValidator) (req : Request) (oldObj pool : lbv1.IPPool) :
  (lbv1.Ranges (lbv1.Spec pool) = [] ->
   Create i req pool = ([], Err (CreateError (lbv1.Name pool) EmptyRangeError)))
  /\ (lbv1.DeletionTimestamp pool = None ->
      lbv1.Ranges (lbv1.Spec pool) = [] ->
      Update i req oldObj pool
      = ([], Err (UpdateError (lbv1.Name pool) EmptyRangeError)))
  /\ (forall rs tr others,
      lbv1.DeletionTimestamp pool = None ->
      lbv1.Ranges (lbv1.Spec pool) <> [] ->
      LBRangesToAllocatorRangeSet (lbv1.Ranges (lbv1.Spec pool)) = Ok rs ->
      getOtherPoolsRanges i (lbv1.Name pool) = (tr, Ok others) ->
      (forall e, checkRange rs others = Some e ->
         Update i req oldObj pool = (tr, Err (UpdateError (lbv1.Name pool) e)))
      /\ (forall e, checkRange rs others = None ->
            checkAllocated rs (lbv1.Allocated (lbv1.Status pool)) = Some e ->
            Update i req oldObj pool = (tr, Err (UpdateError (lbv1.Name pool) e)))
      /\ (forall e, checkRange rs others = None ->
            checkAllocated rs (lbv1.Allocated (lbv1.Status pool)) = None ->
            outcome (checkSelector i pool) = Err e ->
            outcome (Update i req oldObj pool) = Err (UpdateError (lbv1.Name pool) e))
      /\ (checkRange rs others = None ->
            checkAllocated rs (lbv1.Allocated (lbv1.Status pool)) = None ->
            outcome (checkSelector i pool) = Ok tt ->
            outcome (Update i req oldObj pool) = Ok tt)).
Proof.
  split; [| split].
  - intros Hr. unfold Create. by rewrite Hr.
  - intros Hdel Hr. unfold Update.
    rewrite bool_decide_eq_false_2 by (rewrite Hdel; intros H; done).
    by rewrite Hr.
  - intros rs tr others Hdel Hne Hconv Hothers.
    rewrite (Update_checks i req oldObj pool rs tr others Hdel Hne Hconv Hothers).
    repeat split.
    + intros e ->. done.
    + intros e -> ->. done.
    + intros e -> -> ->. done.
    + intros -> -> ->. done.
Qed.

(** ** The range model *)

Lemma Range_Contains_iff (r : allocator.Range) (a : net.IP) :
  allocator.Range_Contains r a = true
  <-> allocator.RangeStart r <= a <= allocator.RangeEnd r.
Proof. unfold allocator.Range_Contains. rewrite andb_true_iff, !Z.leb_le. done. Qed.

Lemma share_Range_Overlaps (r r1 : allocator.Range) :
  allocator.share r r1 -> allocator.Range_Overlaps r r1 = true.
Proof.
  intros [a [Ha Ha1]]. apply Range_Contains_iff in Ha, Ha1.
  unfold allocator.Range_Overlaps.
  destruct (Z_le_gt_dec (allocator.RangeStart r) (allocator.RangeStart r1)) as [Hle | Hgt].
  - assert (H : allocator.Range_Contains r (allocator.RangeStart r1) = true)
      by (apply Range_Contains_iff; lia).
    by rewrite H.
  - assert (H : allocator.Range_Contains r1 (allocator.RangeStart r) = true)
      by (apply Range_Contains_iff; lia).
    rewrite H. by rewrite !orb_true_r.
Qed.

Lemma Range_Overlaps_share (r r1 : allocator.Range) :
  allocator.wf r -> allocator.wf r1 ->
  allocator.Range_Overlaps r r1 = true -> allocator.share r r1.
Proof.
  unfold allocator.wf, allocator.Range_Overlaps, allocator.share.
  intros Hwf Hwf1 Hov.
  rewrite !orb_true_iff in Hov.
  destruct Hov as [[[H | H] | H] | H]; pose proof H as H';
    apply Range_Contains_iff in H'.
  - exists (allocator.RangeStart r1). split; [done |]. apply Range_Contains_iff. lia.
  - exists (allocator.RangeEnd r1). split; [done |]. apply Range_Contains_iff. lia.
  - exists (allocator.RangeStart r). split; [| done]. apply Range_Contains_iff. lia.
  - exists (allocator.RangeEnd r). split; [| done]. apply Range_Contains_iff. lia.
Qed.

Lemma share_sym (r r1 : allocator.Range) :
  allocator.share r r1 -> allocator.share r1 r.
Proof. intros [a [H H1]]. by exists a. Qed.

Lemma Overlaps_not_disjoint (s p1 : allocator.RangeSet) :
  Forall allocator.wf s -> Forall allocator.wf p1 ->
  allocator.Overlaps s p1 = true -> ~ allocator.disjoint s p1.
Proof.
  intros Hs Hp Hov Hdis. unfold allocator.Overlaps in Hov.
  apply existsb_exists in Hov as [r [Hr Hov]].
  apply existsb_exists in Hov as [r1 [Hr1 Hov]].
  rewrite Forall_forall in Hs, Hp.
  apply list_elem_of_In in Hr, Hr1.
  destruct (Range_Overlaps_share r r1 (Hs r Hr) (Hp r1 Hr1) Hov) as [a [Ha Ha1]].
  apply (Hdis a); unfold allocator.Contains; apply existsb_exists.
  - exists r. by rewrite <- list_elem_of_In.
  - exists r1. by rewrite <- list_elem_of_In.
Qed.

(** ** [checkRange] *)

Lemma checkRangeAgainst_Some (r1 : allocator.Range) (later : list allocator.Range)
    (e : error) :
  checkRangeAgainst r1 later = Some e ->
  exists (k : nat) (r2 : allocator.Range),
    later !! k = Some r2 /\ allocator.Range_Overlaps r1 r2 = true
    /\ e = RangeOverlapError r1 r2.
Proof.
  induction later as [| x later IH]; [done |]. simpl.
  destruct (allocator.Range_Overlaps r1 x) eqn:Hov.
  - intros [= <-]. by exists 0%nat, x.
  - intros H. destruct (IH H) as (k & r2 & Hk & Hov2 & ->).
    by exists (S k), r2.
Qed.

(** The inner loop stops at the first later range that overlaps [r1]. *)
Lemma checkRangeAgainst_first (r1 : allocator.Range) (later : list allocator.Range)
    (k : nat) (r2 : allocator.Range) :
  later !! k = Some r2 -> allocator.Range_Overlaps r1 r2 = true ->
  exists (k' : nat) (r2' : allocator.Range),
    (k' <= k)%nat /\ later !! k' = Some r2'
    /\ allocator.Range_Overlaps r1 r2' = true
    /\ checkRangeAgainst r1 later = Some (RangeOverlapError r1 r2').
Proof.
  revert k. induction later as [| x later IH]; intros k Hk Hov; [done |]. simpl.
  destruct (allocator.Range_Overlaps r1 x) eqn:Hx.
  - exists 0%nat, x. repeat split; first [done | lia].
  - destruct k as [| k]; simpl in Hk.
    + injection Hk as ->. congruence.
    + destruct (IH k Hk Hov) as (k' & r2' & Hle & Hk' & Hov' & Hres).
      exists (S k'), r2'. repeat split; first [done | lia].
Qed.

(** The two nested loops stop at the first overlapping pair, in the
    order the loops visit the pairs. *)
Lemma checkRangeItself_first (r : list allocator.Range) (i j : nat)
    (r1 r2 : allocator.Range) :
  (i < j)%nat -> r !! i = Some r1 -> r !! j = Some r2 ->
  allocator.Range_Overlaps r1 r2 = true ->
  exists (i' j' : nat) (r1' r2' : allocator.Range),
    (i' < j')%nat /\ r !! i' = Some r1' /\ r !! j' = Some r2'
    /\ allocator.Range_Overlaps r1' r2' = true
    /\ (i' < i \/ i' = i /\ j' <= j)%nat
    /\ checkRangeItself r = Some (RangeOverlapError r1' r2').
Proof.
  revert i j. induction r as [| x later IH]; intros i j Hij Hi Hj Hov; [done |].
  simpl. destruct j as [| j]; [lia |]. simpl in Hj.
  destruct i as [| i]; simpl in Hi.
  - injection Hi as ->.
    destruct (checkRangeAgainst_first r1 later j r2 Hj Hov)
      as (k' & r2' & Hle & Hk' & Hov' & ->).
    exists 0%nat, (S k'), r1, r2'. repeat split; first [done | lia].
  - destruct (checkRangeAgainst x later) as [e |] eqn:Hx.
    + destruct (checkRangeAgainst_Some x later e Hx) as (k & y & Hk & Hov' & ->).
      exists 0%nat, (S k), x, y. repeat split; first [done | lia].
    + destruct (IH i j ltac:(lia) Hi Hj Hov)
        as (i' & j' & r1' & r2' & Hlt & Hi' & Hj' & Hov' & Hlex & Hres).
      exists (S i'), (S j'), r1', r2'. repeat split; first [done | lia].
Qed.

Lemma checkRangeOthers_None (r : allocator.RangeSet) (others : list allocator.RangeSet) :
  (forall o, o ∈ others -> allocator.Overlaps r o = false) ->
  checkRangeOthers r others = None.
Proof.
  induction others as [| o others IH]; intros H; [done |]. simpl.
  rewrite (H o) by apply list_elem_of_here.
  apply IH. intros o' Ho'. apply H. by apply list_elem_of_further.
Qed.

(** C4.  Self-check: when two ranges at distinct positions of the
    candidate share an address, [checkRange] returns the overlap error
    naming a pair of overlapping ranges of the candidate, whatever the
    other pools are: the first such pair the loops meet, which is the
    given pair unless an earlier one overlaps too.  A candidate of one
    range checked against no other pool passes.  Cross-check: against
    range sets disjoint from the candidate's (all ranges having
    [start <= end]) the second loop reports nothing, so the result is
    that of the self-check. *)
Theorem checkRange_overlap_detection :
  (forall (r : allocator.RangeSet) (others : list allocator.RangeSet)
      (i j : nat) (r1 r2 : allocator.Range),
      i <> j -> r !! i = Some r1 -> r !! j = Some r2 ->
      allocator.share r1 r2 ->
      exists (i' j' : nat) (r1' r2' : allocator.Range),
        (i' < j')%nat /\ r !! i' = Some r1' /\ r !! j' = Some r2'
        /\ allocator.Range_Overlaps r1' r2' = true
        /\ (i' < Nat.min i j \/ i' = Nat.min i j /\ j' <= Nat.max i j)%nat
        /\ checkRange r others = Some (RangeOverlapError r1' r2'))
  /\ (forall r1 : allocator.Range, checkRange [r1] [] = None)
  /\ (forall (r : allocator.RangeSet) (others : list allocator.RangeSet),
      Forall allocator.wf r ->
      Forall (Forall allocator.wf) others ->
      (forall o, o ∈ others -> allocator.disjoint r o) ->
      checkRangeOthers r others = None
      /\ checkRange r others = checkRangeItself r).
Proof.
  split; [| split].
  - intros r others i j r1 r2 Hne Hi Hj Hshare.
    assert (Hcases : (i < j \/ j < i)%nat) by lia.
    destruct Hcases as [Hlt | Hlt].
    + destruct (checkRangeItself_first r i j r1 r2 Hlt Hi Hj
                  (share_Range_Overlaps _ _ Hshare))
        as (i' & j' & r1' & r2' & H1 & H2 & H3 & H4 & H5 & H6).
      exists i', j', r1', r2'. unfold checkRange. rewrite H6.
      repeat split; first [done | lia].
    + destruct (checkRangeItself_first r j i r2 r1 Hlt Hj Hi
                  (share_Range_Overlaps _ _ (share_sym _ _ Hshare)))
        as (i' & j' & r1' & r2' & H1 & H2 & H3 & H4 & H5 & H6).
      exists i', j', r1', r2'. unfold checkRange. rewrite H6.
      repeat split; first [done | lia].
  - done.
  - intros r others Hwf Hwfo Hdis.
    assert (Hnone : checkRangeOthers r others = None).
    { apply checkRangeOthers_None. intros o Ho.
      destruct (allocator.Overlaps r o) eqn:Hov; [| done].
      exfalso. apply (Overlaps_not_disjoint r o); [done | | done | by apply Hdis].
      rewrite Forall_forall in Hwfo. by apply Hwfo. }
    split; [done |]. unfold checkRange. rewrite Hnone.
    by destruct (checkRangeItself r).
Qed.

(** ** [checkAllocated] *)

Lemma checkAllocatedIn_None (rs : allocator.RangeSet) (keys : list string) :
  checkAllocatedIn rs keys = None
  <-> forall ipStr, ipStr ∈ keys -> allocatedInside rs ipStr.
Proof.
  unfold allocatedInside. induction keys as [| k keys IH]; simpl.
  - split; [| done]. intros _ ipStr H. by apply elem_of_nil in H.
  - destruct (ParseIP k) as [ip |] eqn:Hp.
    + destruct (allocator.Contains rs ip) eqn:Hc; simpl.
      * rewrite IH. split.
        -- intros H ipStr [-> | Hin]%elem_of_cons; [by exists ip | by apply H].
        -- intros H ipStr Hin. apply H. by apply list_elem_of_further.
      * split; [done |]. intros H.
        destruct (H k (list_elem_of_here _ _)) as (ip' & Hp' & Hc'). congruence.
    + split; [done |]. intros H.
      destruct (H k (list_elem_of_here _ _)) as (ip' & Hp' & Hc'). congruence.
Qed.

Lemma checkAllocatedIn_Some (rs : allocator.RangeSet) (keys : list string) (e : error) :
  checkAllocatedIn rs keys = Some e ->
  exists ipStr, ipStr ∈ keys
    /\ ((ParseIP ipStr = None /\ e = InvalidAddressError ipStr)
        \/ (exists ip, ParseIP ipStr = Some ip /\ allocator.Contains rs ip = false
              /\ e = AllocatedAddressExcludedError ipStr)).
Proof.
  induction keys as [| k keys IH]; simpl; [done |].
  destruct (ParseIP k) as [ip |] eqn:Hp.
  - destruct (allocator.Contains rs ip) eqn:Hc; simpl.
    + intros H. destruct (IH H) as (ipStr & Hin & Hcase).
      exists ipStr. split; [by apply list_elem_of_further | done].
    + intros [= <-]. exists k. split; [apply list_elem_of_here |].
      right. by exists ip.
  - intros [= <-]. exists k. split; [apply list_elem_of_here |]. by left.
Qed.

Lemma enumerates_elem_of (keys : list string) (m : gmap string string) (k : string) :
  enumerates keys m -> (k ∈ keys <-> is_Some (m !! k)).
Proof.
  unfold enumerates. intros ->. rewrite list_elem_of_fmap. split.
  - intros [[k' v] [-> Hin]]. apply elem_of_map_to_list in Hin. by exists v.
  - intros [v Hv]. exists (k, v). split; [done |]. by apply elem_of_map_to_list.
Qed.

(** The verdict over any enumeration of the keys of a map. *)
Lemma checkAllocatedIn_verdict (rs : allocator.RangeSet) (m : gmap string string)
    (keys : list string) :
  enumerates keys m ->
  (checkAllocatedIn rs keys = None
   <-> forall ipStr, is_Some (m !! ipStr) -> allocatedInside rs ipStr).
Proof.
  intros Hen. rewrite checkAllocatedIn_None. split; intros H ipStr Hin.
  - apply H. by apply (enumerates_elem_of keys m).
  - apply H. by apply (enumerates_elem_of keys m).
Qed.

(** C5, amended.  For a range set and an allocated mapping whose keys
    the loop visits in some order: [checkAllocated] returns no error
    exactly when every allocated address string parses and the address
    lies in the range set; an error it returns is the invalid-address
    error for an allocated string that does not parse or the
    allocated-address-excluded error for one that parses to an address
    outside the range set; whether it returns an error is the same for
    every order of visit, hence across repeated calls, and the same
    for any mapping with the same addresses, whatever the consumers. *)
Theorem checkAllocated_verdict (rs : allocator.RangeSet)
    (allocated : gmap string string) :
  enumerates (mapKeys allocated) allocated ->
  (checkAllocated rs allocated = None
   <-> forall ipStr, is_Some (allocated !! ipStr) -> allocatedInside rs ipStr)
  /\ (forall e, checkAllocated rs allocated = Some e ->
      exists ipStr, is_Some (allocated !! ipStr)
        /\ ((ParseIP ipStr = None /\ e = InvalidAddressError ipStr)
            \/ (exists ip, ParseIP ipStr = Some ip
                  /\ allocator.Contains rs ip = false
                  /\ e = AllocatedAddressExcludedError ipStr)))
  /\ (forall keys', enumerates keys' allocated ->
      (checkAllocatedIn rs keys' = None <-> checkAllocated rs allocated = None))
  /\ (forall allocated' keys',
      dom allocated' = dom allocated -> enumerates keys' allocated' ->
      (checkAllocatedIn rs keys' = None <-> checkAllocated rs allocated = None)).
Proof.
  intros Hen. unfold checkAllocated.
  pose proof (checkAllocatedIn_verdict rs allocated _ Hen) as Hv.
  split; [done |]. split; [| split].
  - intros e He. destruct (checkAllocatedIn_Some rs _ e He) as (ipStr & Hin & Hcase).
    exists ipStr. split; [| done]. by apply (enumerates_elem_of (mapKeys allocated) allocated).
  - intros keys' Hen'. rewrite Hv. by apply checkAllocatedIn_verdict.
  - intros allocated' keys' Hdom Hen'.
    rewrite Hv, (checkAllocatedIn_verdict rs allocated' keys' Hen').
    split; intros H ipStr Hin; apply H;
      apply elem_of_dom; apply elem_of_dom in Hin; congruence.
Qed.

(** ** Listing the cache *)

Lemma List_ok (c : IPPoolCache) (sel : labels.Selector) :
  listError c = None ->
  List c sel
  = ([sel], Ok (filter (fun p => labels.Matches sel (lbv1.Labels p) = true) (stored c))).
Proof. unfold List. by intros ->. Qed.

Lemma List_everything (c : IPPoolCache) :
  listError c = None -> List c labels.Everything = ([labels.Everything], Ok (stored c)).
Proof.
  intros H. rewrite (List_ok c _ H). do 2 f_equal.
  induction (stored c) as [| p l IH]; [done |].
  rewrite filter_cons_True by done. by rewrite IH.
Qed.

(** The listing [checkGlobalIPPool] asks for selects the pools that
    [isGlobalIPPool] accepts. *)
Lemma Matches_global (p : lbv1.IPPool) :
  labels.Matches (labels.SetSelector {[ KeyGlobalIPPool := ValueTrue ]}) (lbv1.Labels p)
  = isGlobalIPPool p.
Proof.
  unfold labels.Matches, isGlobalIPPool. apply bool_decide_ext.
  apply map_singleton_subseteq_l.
Qed.

Lemma elem_of_global_listing (p : lbv1.IPPool) (pools : list lbv1.IPPool) :
  p ∈ filter (fun p => labels.Matches
                (labels.SetSelector {[ KeyGlobalIPPool := ValueTrue ]})
                (lbv1.Labels p) = true) pools
  <-> p ∈ pools /\ isGlobalIPPool p = true.
Proof. rewrite list_elem_of_filter, Matches_global. tauto. Qed.

(** ** [checkGlobalIPPool] *)

Lemma firstOtherPool_None (pool : lbv1.IPPool) (pools : list lbv1.IPPool) :
  (forall q, q ∈ pools -> lbv1.Name q = lbv1.Name pool) ->
  firstOtherPool pool pools = None.
Proof.
  induction pools as [| q pools IH]; intros H; [done |]. simpl.
  rewrite (proj2 (String.eqb_eq _ _) (H q (list_elem_of_here _ _))).
  apply IH. intros q' Hq'. apply H. by apply list_elem_of_further.
Qed.

Lemma firstOtherPool_app (pool : lbv1.IPPool) (l1 l2 : list lbv1.IPPool) :
  (forall q, q ∈ l1 -> lbv1.Name q = lbv1.Name pool) ->
  firstOtherPool pool (l1 ++ l2) = firstOtherPool pool l2.
Proof.
  induction l1 as [| q l1 IH]; intros H; [done |]. simpl.
  rewrite (proj2 (String.eqb_eq _ _) (H q (list_elem_of_here _ _))).
  apply IH. intros q' Hq'. apply H. by apply list_elem_of_further.
Qed.

Lemma firstOtherPool_Some (pool p : lbv1.IPPool) (pools : list lbv1.IPPool) :
  p ∈ pools -> lbv1.Name p <> lbv1.Name pool ->
  exists q, q ∈ pools /\ lbv1.Name q <> lbv1.Name pool
    /\ firstOtherPool pool pools = Some (DuplicateGlobalPoolError (lbv1.Name q)).
Proof.
  induction pools as [| x pools IH]; intros Hin Hne.
  - by apply elem_of_nil in Hin.
  - simpl. destruct (lbv1.Name x =? lbv1.Name pool)%string eqn:Hx.
    + apply String.eqb_eq in Hx. apply elem_of_cons in Hin as [-> | Hin]; [done |].
      destruct (IH Hin Hne) as (q & Hq & Hqne & Hres).
      exists q. split; [by apply list_elem_of_further | done].
    + apply String.eqb_neq in Hx. exists x. split; [apply list_elem_of_here | done].
Qed.

Lemma checkSelector_global (i : ipPoolValidator) (pool : lbv1.IPPool) :
  isGlobalIPPool pool = true -> checkSelector i pool = checkGlobalIPPool i pool.
Proof. unfold checkSelector. by intros ->. Qed.

Lemma checkGlobalIPPool_ok (i : ipPoolValidator) (pool : lbv1.IPPool) :
  listError (ipPoolCache i) = None ->
  checkGlobalIPPool i pool
  = ([labels.SetSelector {[ KeyGlobalIPPool := ValueTrue ]}],
     match firstOtherPool pool
             (filter (fun p => labels.Matches
                        (labels.SetSelector {[ KeyGlobalIPPool := ValueTrue ]})
                        (lbv1.Labels p) = true) (stored (ipPoolCache i))) with
     | Some e => Err e
     | None => Ok tt
     end).
Proof.
  intros H. unfold checkGlobalIPPool. rewrite (List_ok _ _ H).
  unfold mbind, M_bind. cbn [bind].
  by destruct (firstOtherPool pool _).
Qed.

(** C3.  For a pool under admission that is marked global, the cache
    listing its pools: if some stored pool of another name is marked
    global, [checkSelector] fails with the duplicate-global-pool error
    naming such a pool, the first one of the listing ([p] itself when
    no other global pool precedes it); otherwise it succeeds.  Either
    way it lists the global pools and nothing else, and its result is
    the same for every global pool of that name, whatever the
    selector's priority and scope: no self-scope, priority or
    cross-pool check is made. *)
Theorem checkSelector_global_pool (i : ipPoolValidator) (pool : lbv1.IPPool) :
  isGlobalIPPool pool = true ->
  listError (ipPoolCache i) = None ->
  (forall p, p ∈ stored (ipPoolCache i) -> isGlobalIPPool p = true ->
     lbv1.Name p <> lbv1.Name pool ->
     exists q, q ∈ stored (ipPoolCache i) /\ isGlobalIPPool q = true
       /\ lbv1.Name q <> lbv1.Name pool
       /\ checkSelector i pool
          = ([labels.SetSelector {[ KeyGlobalIPPool := ValueTrue ]}],
             Err (DuplicateGlobalPoolError (lbv1.Name q))))
  /\ (forall l1 p l2, stored (ipPoolCache i) = (l1 ++ p :: l2)%list ->
      (forall q, q ∈ l1 -> isGlobalIPPool q = true -> lbv1.Name q = lbv1.Name pool) ->
      isGlobalIPPool p = true -> lbv1.Name p <> lbv1.Name pool ->
      checkSelector i pool
      = ([labels.SetSelector {[ KeyGlobalIPPool := ValueTrue ]}],
         Err (DuplicateGlobalPoolError (lbv1.Name p))))
  /\ ((forall p, p ∈ stored (ipPoolCache i) -> isGlobalIPPool p = true ->
         lbv1.Name p = lbv1.Name pool) ->
      checkSelector i pool
      = ([labels.SetSelector {[ KeyGlobalIPPool := ValueTrue ]}], Ok tt))
  /\ (forall pool', isGlobalIPPool pool' = true ->
      lbv1.Name pool' = lbv1.Name pool ->
      checkSelector i pool' = checkSelector i pool).
Proof.
  intros Hglobal Hlist.
  rewrite (checkSelector_global i pool Hglobal), (checkGlobalIPPool_ok i pool Hlist).
  split; [| split; [| split]].
  - intros p Hin Hg Hne.
    destruct (firstOtherPool_Some pool p
                (filter (fun p => labels.Matches
                           (labels.SetSelector {[ KeyGlobalIPPool := ValueTrue ]})
                           (lbv1.Labels p) = true) (stored (ipPoolCache i))))
      as (q & Hq & Hqne & Hres); [by apply elem_of_global_listing | done |].
    apply elem_of_global_listing in Hq as [Hq Hqg].
    exists q. rewrite Hres. done.
  - intros l1 p l2 Hst Hl1 Hg Hne. rewrite Hst, filter_app.
    rewrite firstOtherPool_app.
    + rewrite filter_cons_True by (by rewrite Matches_global). simpl.
      by rewrite (proj2 (String.eqb_neq _ _) Hne).
    + intros q [Hq Hqg]%elem_of_global_listing. by apply Hl1.
  - intros Hall. rewrite firstOtherPool_None; [done |].
    intros q [Hq Hqg]%elem_of_global_listing. by apply Hall.
  - intros pool' Hg' Hname.
    rewrite (checkSelector_global i pool' Hg'), (checkGlobalIPPool_ok i pool' Hlist).
    f_equal.
    assert (Hsame : forall l, firstOtherPool pool' l = firstOtherPool pool l).
    { induction l as [| x l IH]; [done |]. simpl. by rewrite Hname, IH. }
    by rewrite Hsame.
Qed.

(** ** [checkSelectorWithOthers] *)

Lemma checkSelectorWithOthers_ok (i : ipPoolValidator) (pool : lbv1.IPPool) :
  listError (ipPoolCache i) = None ->
  checkSelectorWithOthers i pool
  = ([labels.Everything],
     match checkSelectorWithEach pool (stored (ipPoolCache i)) with
     | Some e => Err e
     | None => Ok tt
     end).
Proof.
  intros H. unfold checkSelectorWithOthers. rewrite (List_everything _ H).
  unfold mbind, M_bind. cbn [bind].
  by destruct (checkSelectorWithEach pool _).
Qed.

Lemma checkSelectorWithEach_app (pool : lbv1.IPPool) (l1 l2 : list lbv1.IPPool) :
  (forall q, q ∈ l1 -> checkSelectorWith pool q = None) ->
  checkSelectorWithEach pool (l1 ++ l2) = checkSelectorWithEach pool l2.
Proof.
  induction l1 as [| q l1 IH]; intros H; [done |]. simpl.
  rewrite (H q (list_elem_of_here _ _)).
  apply IH. intros q' Hq'. apply H. by apply list_elem_of_further.
Qed.

(** A pool whose iteration reports nothing can be left out of the listing. *)
Lemma checkSelectorWithEach_skip (pool p : lbv1.IPPool) (l1 l2 : list lbv1.IPPool) :
  checkSelectorWith pool p = None ->
  checkSelectorWithEach pool (l1 ++ p :: l2) = checkSelectorWithEach pool (l1 ++ l2).
Proof.
  intros Hp. induction l1 as [| q l1 IH]; simpl; [by rewrite Hp |].
  by rewrite IH.
Qed.

Lemma comparedWith_guard (pool p : lbv1.IPPool) :
  comparedWith pool p ->
  (lbv1.Name p =? lbv1.Name pool)%string || isGlobalIPPool p = false.
Proof.
  intros [Hname Hglobal]. by rewrite (proj2 (String.eqb_neq _ _) Hname), Hglobal.
Qed.

Lemma checkSelectorWith_same_priority (pool p : lbv1.IPPool) :
  comparedWith pool p -> priorityOf p <> 0%N -> priorityOf p = priorityOf pool ->
  checkSelectorWith pool p = Some (DuplicatePriorityError (lbv1.Name p)).
Proof.
  unfold priorityOf. intros Hcmp Hnz Heq. unfold checkSelectorWith.
  rewrite (comparedWith_guard pool p Hcmp).
  rewrite (proj2 (N.eqb_neq _ _) Hnz), (proj2 (N.eqb_eq _ _) Heq). done.
Qed.

Lemma checkSelectorWith_other_priority (pool p : lbv1.IPPool) :
  priorityOf p <> priorityOf pool ->
  priorityOf p <> 0%N \/ priorityOf pool <> 0%N ->
  checkSelectorWith pool p = None.
Proof.
  unfold priorityOf. intros Hne Hnz. unfold checkSelectorWith.
  destruct ((lbv1.Name p =? lbv1.Name pool)%string || isGlobalIPPool p); [done |].
  rewrite (proj2 (N.eqb_neq _ _) Hne), andb_false_r.
  destruct Hnz as [Hnz | Hnz]; rewrite (proj2 (N.eqb_neq _ _) Hnz);
    by rewrite ?andb_false_r.
Qed.

(** Against a pool under admission of non-zero priority, an iteration
    can only report a duplicate priority. *)
Lemma checkSelectorWith_nonzero (pool x : lbv1.IPPool) (e : error) :
  priorityOf pool <> 0%N -> checkSelectorWith pool x = Some e ->
  comparedWith pool x /\ priorityOf x = priorityOf pool
  /\ e = DuplicatePriorityError (lbv1.Name x).
Proof.
  unfold priorityOf, comparedWith. intros Hnz. unfold checkSelectorWith.
  destruct (lbv1.Name x =? lbv1.Name pool)%string eqn:Hname; [done |].
  destruct (isGlobalIPPool x) eqn:Hglobal; [done |]. simpl.
  apply String.eqb_neq in Hname.
  destruct (lbv1.Priority (lbv1.SpecSelector (lbv1.Spec x)) =? 0)%N eqn:Hz; simpl.
  - rewrite (proj2 (N.eqb_neq _ _) Hnz). done.
  - destruct (N.eqb_spec (lbv1.Priority (lbv1.SpecSelector (lbv1.Spec x)))
                (lbv1.Priority (lbv1.SpecSelector (lbv1.Spec pool)))) as [Heq | Hne];
      [| done].
    intros [= <-]. done.
Qed.

Lemma checkSelectorWithEach_same_priority (pool p : lbv1.IPPool)
    (pools : list lbv1.IPPool) :
  p ∈ pools -> comparedWith pool p ->
  priorityOf p <> 0%N -> priorityOf p = priorityOf pool ->
  exists q, q ∈ pools /\ comparedWith pool q /\ priorityOf q = priorityOf pool
    /\ checkSelectorWithEach pool pools = Some (DuplicatePriorityError (lbv1.Name q)).
Proof.
  intros Hin Hcmp Hnz Heq.
  induction pools as [| x pools IH]; [by apply elem_of_nil in Hin |].
  simpl. destruct (checkSelectorWith pool x) as [e |] eqn:Hx.
  - destruct (checkSelectorWith_nonzero pool x e) as (Hc & Hp & ->);
      [congruence | done |].
    exists x. split; [apply list_elem_of_here | done].
  - apply elem_of_cons in Hin as [-> | Hin].
    + rewrite (checkSelectorWith_same_priority pool x) in Hx; done.
    + destruct (IH Hin) as (q & Hq & Hrest).
      exists q. split; [by apply list_elem_of_further | done].
Qed.

(** C6.  For a pool under admission and a stored pool [p] of another
    name that is not marked global, the cache listing its pools.  When
    both priorities are non-zero and equal, the iteration for [p]
    reports the duplicate-priority error naming [p], whatever the
    scopes are, and the cross-pool check fails with a duplicate-priority
    error: it names [p] unless an earlier pool of the listing has that
    priority too, which is then the one named.  When the priorities
    differ and one of them is non-zero, the iteration for [p] reports
    nothing, and the check gives what it gives on the listing without
    [p], whatever the scopes are. *)
Theorem cross_pool_priority_rule (i : ipPoolValidator) (pool p : lbv1.IPPool) :
  listError (ipPoolCache i) = None ->
  p ∈ stored (ipPoolCache i) ->
  comparedWith pool p ->
  (priorityOf p <> 0%N -> priorityOf p = priorityOf pool ->
     checkSelectorWith pool p = Some (DuplicatePriorityError (lbv1.Name p))
     /\ (exists q, q ∈ stored (ipPoolCache i) /\ comparedWith pool q
           /\ priorityOf q = priorityOf pool
           /\ checkSelectorWithOthers i pool
              = ([labels.Everything], Err (DuplicatePriorityError (lbv1.Name q))))
     /\ (forall l1 l2, stored (ipPoolCache i) = (l1 ++ p :: l2)%list ->
         (forall q, q ∈ l1 -> comparedWith pool q ->
            priorityOf q <> priorityOf pool) ->
         checkSelectorWithOthers i pool
         = ([labels.Everything], Err (DuplicatePriorityError (lbv1.Name p)))))
  /\ (priorityOf p <> priorityOf pool ->
      priorityOf p <> 0%N \/ priorityOf pool <> 0%N ->
      checkSelectorWith pool p = None
      /\ (forall l1 l2, stored (ipPoolCache i) = (l1 ++ p :: l2)%list ->
          checkSelectorWithOthers i pool
          = checkSelectorWithOthers
              {| ipPoolCache := {| stored := l1 ++ l2; listError := None |} |} pool)).
Proof.
  intros Hlist Hin Hcmp. split.
  - intros Hnz Heq.
    pose proof (checkSelectorWith_same_priority pool p Hcmp Hnz Heq) as Hp.
    split; [done |]. rewrite (checkSelectorWithOthers_ok i pool Hlist). split.
    + destruct (checkSelectorWithEach_same_priority pool p _ Hin Hcmp Hnz Heq)
        as (q & Hq & Hqc & Hqp & Hres).
      exists q. by rewrite Hres.
    + intros l1 l2 Hst Hl1. rewrite Hst, checkSelectorWithEach_app.
      * simpl. by rewrite Hp.
      * intros q Hq. destruct (checkSelectorWith pool q) as [e |] eqn:Hq'; [| done].
        destruct (checkSelectorWith_nonzero pool q e) as (Hc & Hpq & _);
          [congruence | done |].
        by destruct (Hl1 q Hq Hc).
  - intros Hne Hnz.
    pose proof (checkSelectorWith_other_priority pool p Hne Hnz) as Hp.
    split; [done |]. intros l1 l2 Hst.
    rewrite (checkSelectorWithOthers_ok i pool Hlist).
    rewrite checkSelectorWithOthers_ok by done. cbn [ipPoolCache stored].
    by rewrite Hst, (checkSelectorWithEach_skip pool p l1 l2 Hp).
Qed.

(** ** The scope rule of the cross-pool check *)

Lemma checkScopeAgainst_None (pool p : lbv1.IPPool) (ts : list lbv1.Tuple) :
  checkScopeAgainst pool p ts = None
  <-> forall t, t ∈ ts -> entryMatchedBy pool p t = false.
Proof.
  unfold entryMatchedBy, networkOf. induction ts as [| t ts IH]; simpl.
  - split; [| done]. intros _ t H. by apply elem_of_nil in H.
  - destruct (ipam.Matches _ (requirementOf _ t)) eqn:Hm.
    + split; [done |]. intros H. specialize (H t (list_elem_of_here _ _)). congruence.
    + rewrite IH. split.
      * intros H t' [-> | Hin]%elem_of_cons; [done | by apply H].
      * intros H t' Hin. apply H. by apply list_elem_of_further.
Qed.


Lemma checkSelectorWith_zero (pool p : lbv1.IPPool) :
  comparedWith pool p -> priorityOf p = 0%N -> priorityOf pool = 0%N ->
  checkSelectorWith pool p = checkScopeAgainst pool p (scopeOf pool).
Proof.
  unfold priorityOf, scopeOf. intros Hcmp Hp Hpool. unfold checkSelectorWith.
  rewrite (comparedWith_guard pool p Hcmp), Hp, Hpool. done.
Qed.

(** An iteration that reports something compares with [p], on equal
    priorities. *)
Lemma checkSelectorWith_Some (pool p : lbv1.IPPool) (e : error) :
  checkSelectorWith pool p = Some e ->
  comparedWith pool p /\ priorityOf p = priorityOf pool.
Proof.
  unfold priorityOf, comparedWith, checkSelectorWith.
  destruct (lbv1.Name p =? lbv1.Name pool)%string eqn:Hname; [done |].
  destruct (isGlobalIPPool p) eqn:Hglobal; [done |]. simpl.
  apply String.eqb_neq in Hname.
  destruct (N.eqb_spec (lbv1.Priority (lbv1.SpecSelector (lbv1.Spec p))) 0) as [Hz | Hnz];
    simpl.
  - destruct (N.eqb_spec (lbv1.Priority (lbv1.SpecSelector (lbv1.Spec pool))) 0)
      as [Hz' | Hnz']; [| done].
    intros _. split; [done | congruence].
  - destruct (N.eqb_spec (lbv1.Priority (lbv1.SpecSelector (lbv1.Spec p)))
                (lbv1.Priority (lbv1.SpecSelector (lbv1.Spec pool)))) as [Heq | Hne];
      [| done].
    intros _. done.
Qed.



(** ** [checkSelectorItself] *)







End Properties.

(** * Further properties of the validator *)

Section Further.

Context `{E : Externals}.

(** ** What [checkRange] accepts *)

Lemma Range_Overlaps_sym (r r1 : allocator.Range) :
  allocator.Range_Overlaps r r1 = allocator.Range_Overlaps r1 r.
Proof.
  unfold allocator.Range_Overlaps.
  destruct (allocator.Range_Contains r (allocator.RangeStart r1)),
    (allocator.Range_Contains r (allocator.RangeEnd r1)),
    (allocator.Range_Contains r1 (allocator.RangeStart r)),
    (allocator.Range_Contains r1 (allocator.RangeEnd r)); reflexivity.
Qed.

Lemma checkRangeAgainst_None_iff (r1 : allocator.Range) (later : list allocator.Range) :
  checkRangeAgainst r1 later = None
  <-> Forall (fun r2 => allocator.Range_Overlaps r1 r2 = false) later.
Proof.
  induction later as [| x later IH]; simpl.
  - split; [constructor | done].
  - destruct (allocator.Range_Overlaps r1 x) eqn:Hx.
    + split; [done |]. intros H. apply Forall_cons in H as [H _]. congruence.
    + rewrite IH. split; [by constructor | by intros [_ H]%Forall_cons].
Qed.

Lemma checkRangeItself_cons_None (x : allocator.Range) (later : list allocator.Range) :
  checkRangeItself (x :: later) = None
  <-> checkRangeAgainst x later = None /\ checkRangeItself later = None.
Proof.
  simpl. destruct (checkRangeAgainst x later); [| tauto].
  split; [done | by intros [H _]].
Qed.

(** The self-check passes exactly when no range overlaps a later one. *)
Lemma checkRangeItself_None_iff (r : list allocator.Range) :
  checkRangeItself r = None
  <-> forall (i j : nat) (r1 r2 : allocator.Range),
        (i < j)%nat -> r !! i = Some r1 -> r !! j = Some r2 ->
        allocator.Range_Overlaps r1 r2 = false.
Proof.
  split.
  - intros Hnone i j r1 r2 Hij Hi Hj.
    destruct (allocator.Range_Overlaps r1 r2) eqn:Hov; [| done].
    destruct (checkRangeItself_first r i j r1 r2 Hij Hi Hj Hov)
      as (? & ? & ? & ? & _ & _ & _ & _ & _ & Hres). congruence.
  - induction r as [| x later IH]; intros H; [done |].
    apply checkRangeItself_cons_None. split.
    + apply checkRangeAgainst_None_iff, Forall_lookup. intros k y Hk.
      apply (H 0%nat (S k) x y); [lia | done | done].
    + apply IH. intros i j r1 r2 Hij Hi Hj.
      apply (H (S i) (S j) r1 r2); [lia | done | done].
Qed.

Lemma checkRangeOthers_None_iff (r : allocator.RangeSet) (others : list allocator.RangeSet) :
  checkRangeOthers r others = None
  <-> forall o, o ∈ others -> allocator.Overlaps r o = false.
Proof.
  split; [| apply checkRangeOthers_None].
  induction others as [| o others IH]; simpl; intros H o' Ho'.
  - by apply elem_of_nil in Ho'.
  - destruct (allocator.Overlaps r o) eqn:Ho; [done |].
    apply elem_of_cons in Ho' as [-> | Ho']; [done | by apply IH].
Qed.

Lemma checkRangeOthers_Some (r : allocator.RangeSet) (others : list allocator.RangeSet)
    (e : error) :
  checkRangeOthers r others = Some e ->
  exists o, o ∈ others /\ allocator.Overlaps r o = true /\ e = RangeSetOverlapError r.
Proof.
  induction others as [| o others IH]; simpl; [done |].
  destruct (allocator.Overlaps r o) eqn:Ho.
  - intros [= <-]. exists o. split; [apply list_elem_of_here | done].
  - intros H. destruct (IH H) as (o' & Ho' & Hrest).
    exists o'. split; [by apply list_elem_of_further | done].
Qed.

Lemma checkRangeItself_Some (r : list allocator.Range) (e : error) :
  checkRangeItself r = Some e ->
  exists (i j : nat) (r1 r2 : allocator.Range),
    (i < j)%nat /\ r !! i = Some r1 /\ r !! j = Some r2
    /\ allocator.Range_Overlaps r1 r2 = true /\ e = RangeOverlapError r1 r2.
Proof.
  induction r as [| x later IH]; simpl; [done |].
  destruct (checkRangeAgainst x later) as [e' |] eqn:Hx.
  - intros [= <-].
    destruct (checkRangeAgainst_Some x later e' Hx) as (k & y & Hk & Hov & ->).
    exists 0%nat, (S k), x, y. repeat split; first [done | lia].
  - intros H. destruct (IH H) as (i & j & r1 & r2 & Hij & Hi & Hj & Hov & ->).
    exists (S i), (S j), r1, r2. repeat split; first [done | lia].
Qed.

Lemma not_Overlaps_disjoint (s p1 : allocator.RangeSet) :
  allocator.Overlaps s p1 = false -> allocator.disjoint s p1.
Proof.
  intros Hov a Ha Ha1. unfold allocator.Contains in Ha, Ha1.
  apply existsb_exists in Ha as [r [Hr Ha]].
  apply existsb_exists in Ha1 as [r1 [Hr1 Ha1]].
  assert (Htrue : allocator.Overlaps s p1 = true); [| congruence].
  unfold allocator.Overlaps. apply existsb_exists. exists r. split; [done |].
  apply existsb_exists. exists r1. split; [done |].
  apply share_Range_Overlaps. by exists a.
Qed.

Lemma checkRangeItself_None_apart (r : allocator.RangeSet) :
  checkRangeItself r = None -> pairwiseApart r.
Proof.
  intros Hnone i j r1 r2 Hne Hi Hj Hshare.
  pose proof (proj1 (checkRangeItself_None_iff r) Hnone) as H.
  assert (Hcases : (i < j \/ j < i)%nat) by lia.
  destruct Hcases as [Hlt | Hlt].
  - pose proof (H i j r1 r2 Hlt Hi Hj) as Hf.
    rewrite (share_Range_Overlaps _ _ Hshare) in Hf. done.
  - pose proof (H j i r2 r1 Hlt Hj Hi) as Hf.
    rewrite (share_Range_Overlaps _ _ (share_sym _ _ Hshare)) in Hf. done.
Qed.

(** X1.  What [checkRange] lets through.  When it returns no error, no
    two ranges at distinct positions of the candidate share an address
    and no address of the candidate lies in any of the other range
    sets.  For ranges with [start <= end] the converse holds, so the
    check accepts exactly those candidates.  An error it returns is the
    range-overlap error for two overlapping ranges of the candidate, the
    first before the second, or, the candidate being free of overlaps,
    the set-overlap error for the candidate when it overlaps one of the
    other sets. *)
Theorem checkRange_accepts_iff (r : allocator.RangeSet)
    (others : list allocator.RangeSet) :
  (checkRange r others = None ->
   pairwiseApart r /\ forall o, o ∈ others -> allocator.disjoint r o)
  /\ (Forall allocator.wf r -> Forall (Forall allocator.wf) others ->
      pairwiseApart r -> (forall o, o ∈ others -> allocator.disjoint r o) ->
      checkRange r others = None)
  /\ (forall e, checkRange r others = Some e ->
      (exists (i j : nat) (r1 r2 : allocator.Range),
          (i < j)%nat /\ r !! i = Some r1 /\ r !! j = Some r2
          /\ allocator.Range_Overlaps r1 r2 = true /\ e = RangeOverlapError r1 r2)
      \/ (checkRangeItself r = None
          /\ exists o, o ∈ others /\ allocator.Overlaps r o = true
               /\ e = RangeSetOverlapError r)).
Proof.
  unfold checkRange. split; [| split].
  - destruct (checkRangeItself r) eqn:Hself; [done |]. intros Hothers. split.
    + by apply checkRangeItself_None_apart.
    + intros o Ho. apply not_Overlaps_disjoint.
      by apply (proj1 (checkRangeOthers_None_iff r others) Hothers).
  - intros Hwf Hwfo Hapart Hdis.
    assert (Hself : checkRangeItself r = None).
    { apply checkRangeItself_None_iff. intros i j r1 r2 Hij Hi Hj.
      destruct (allocator.Range_Overlaps r1 r2) eqn:Hov; [| done].
      exfalso. apply (Hapart i j r1 r2); [lia | done | done |].
      rewrite Forall_forall in Hwf.
      apply Range_Overlaps_share; [| | done]; apply Hwf;
        apply list_elem_of_lookup; eauto. }
    rewrite Hself. apply checkRangeOthers_None. intros o Ho.
    destruct (allocator.Overlaps r o) eqn:Hov; [| done].
    exfalso. apply (Overlaps_not_disjoint r o); [done | | done | by apply Hdis].
    rewrite Forall_forall in Hwfo. by apply Hwfo.
  - intros e. destruct (checkRangeItself r) as [e' |] eqn:Hself.
    + intros [= <-]. left. by apply checkRangeItself_Some.
    + intros H. right. split; [done |]. by apply checkRangeOthers_Some.
Qed.

(** ** The order of the ranges *)

Lemma checkRangeItself_Permutation (r r' : list allocator.Range) :
  r ≡ₚ r' -> checkRangeItself r = None -> checkRangeItself r' = None.
Proof.
  induction 1 as [| x l l' Hperm IH | x y l | l l' l'' _ IH1 _ IH2].
  - done.
  - rewrite !checkRangeItself_cons_None, !checkRangeAgainst_None_iff.
    intros [Hx Hl]. split; [by rewrite <- Hperm | by apply IH].
  - rewrite !checkRangeItself_cons_None, !checkRangeAgainst_None_iff.
    intros [[Hyx Hy]%Forall_cons [Hx Hl]].
    repeat split; [| done | done].
    constructor; [by rewrite Range_Overlaps_sym | done].
  - intros H. by apply IH2, IH1.
Qed.

Lemma Overlaps_Permutation (s s' p1 p1' : allocator.RangeSet) :
  s ≡ₚ s' -> p1 ≡ₚ p1' -> allocator.Overlaps s p1 = allocator.Overlaps s' p1'.
Proof.
  intros Hs Hp. apply eq_true_iff_eq. unfold allocator.Overlaps.
  rewrite !existsb_exists. split; intros (r & Hr & Hov); exists r;
    apply existsb_exists in Hov as (r1 & Hr1 & Hov);
    rewrite <- list_elem_of_In in Hr, Hr1.
  - split; [by rewrite <- list_elem_of_In, <- Hs |].
    apply existsb_exists. exists r1. by rewrite <- list_elem_of_In, <- Hp.
  - split; [by rewrite <- list_elem_of_In, Hs |].
    apply existsb_exists. exists r1. by rewrite <- list_elem_of_In, Hp.
Qed.

(** X2.  Whether [checkRange] accepts does not depend on the order in
    which the candidate lists its ranges, nor on the order of the other
    range sets. *)
Theorem checkRange_order_irrelevant (r r' : allocator.RangeSet)
    (others others' : list allocator.RangeSet) :
  r ≡ₚ r' -> others ≡ₚ others' ->
  (checkRange r others = None <-> checkRange r' others' = None).
Proof.
  assert (Hone : forall s s' os os', s ≡ₚ s' -> os ≡ₚ os' ->
            checkRange s os = None -> checkRange s' os' = None).
  { intros s s' os os' Hs Hos. unfold checkRange.
    destruct (checkRangeItself s) eqn:Hself; [done |].
    rewrite (checkRangeItself_Permutation s s' Hs Hself).
    rewrite !checkRangeOthers_None_iff. intros H o Ho.
    rewrite <- (Overlaps_Permutation s s' o o Hs (reflexivity o)).
    apply H. by rewrite Hos. }
  intros Hr Hothers. split; apply Hone; done.
Qed.

(** ** [getOtherPoolsRanges] *)

Lemma List_err (c : IPPoolCache) (sel : labels.Selector) (e : error) :
  listError c = Some e -> List c sel = ([sel], Err e).
Proof. unfold List. by intros ->. Qed.

Lemma getOtherPoolsRanges_ok (i : ipPoolValidator) (myName : string) :
  listError (ipPoolCache i) = None ->
  getOtherPoolsRanges i myName
  = ([labels.Everything], appendOtherRanges myName (stored (ipPoolCache i)) []).
Proof.
  intros H. unfold getOtherPoolsRanges. rewrite (List_everything _ H).
  unfold mbind, M_bind. cbn [bind].
  destruct (stored (ipPoolCache i)) as [| p l]; [done |].
  cbn [length Nat.eqb pure]. by destruct (appendOtherRanges myName (p :: l) []).
Qed.

Lemma getOtherPoolsRanges_err (i : ipPoolValidator) (myName : string) (e : error) :
  listError (ipPoolCache i) = Some e ->
  getOtherPoolsRanges i myName = ([labels.Everything], Err e).
Proof. intros H. unfold getOtherPoolsRanges. by rewrite (List_err _ _ e H). Qed.

(** What the loop has appended when it ends without an error: after the
    sets it started from, the range sets of the pools of another name,
    in the order of the listing. *)
Lemma appendOtherRanges_Ok (myName : string) (pools : list lbv1.IPPool)
    (acc rss : list allocator.RangeSet) :
  appendOtherRanges myName pools acc = Ok rss ->
  exists rss', rss = (acc ++ rss')%list
    /\ Forall2 convertsTo (filter (fun p => lbv1.Name p <> myName) pools) rss'.
Proof.
  revert acc. induction pools as [| p pools IH]; intros acc; simpl.
  - intros [= <-]. exists []. by rewrite app_nil_r.
  - destruct (String.eqb_spec (lbv1.Name p) myName) as [Heq | Hne]; simpl.
    + rewrite filter_cons_False by (intros H; by apply H). apply IH.
    + rewrite filter_cons_True by done.
      destruct (LBRangesToAllocatorRangeSet (lbv1.Ranges (lbv1.Spec p))) as [r | e] eqn:Hp;
        [| done].
      intros H. destruct (IH _ H) as (rss' & -> & Hall).
      exists (r :: rss'). split; [by rewrite <- app_assoc |]. by constructor.
Qed.

Lemma appendOtherRanges_converts (myName : string) (pools : list lbv1.IPPool)
    (acc : list allocator.RangeSet) :
  (forall p, p ∈ pools -> lbv1.Name p <> myName -> exists rs, convertsTo p rs) ->
  exists rss, appendOtherRanges myName pools acc = Ok rss.
Proof.
  revert acc. induction pools as [| p pools IH]; intros acc Hall; simpl; [by eexists |].
  assert (Hrest : forall q, q ∈ pools -> lbv1.Name q <> myName ->
            exists rs, convertsTo q rs)
    by (intros q Hq; apply Hall; by apply list_elem_of_further).
  destruct (String.eqb_spec (lbv1.Name p) myName) as [Heq | Hne]; simpl; [by apply IH |].
  destruct (Hall p (list_elem_of_here _ _) Hne) as [r Hr]. unfold convertsTo in Hr.
  rewrite Hr. by apply IH.
Qed.

Lemma appendOtherRanges_Err (myName : string) (l1 l2 : list lbv1.IPPool)
    (p : lbv1.IPPool) (e : error) (acc : list allocator.RangeSet) :
  (forall q, q ∈ l1 -> lbv1.Name q <> myName -> exists rs, convertsTo q rs) ->
  lbv1.Name p <> myName ->
  LBRangesToAllocatorRangeSet (lbv1.Ranges (lbv1.Spec p)) = Err e ->
  appendOtherRanges myName (l1 ++ p :: l2) acc = Err e.
Proof.
  intros Hl1 Hne Hp. revert acc. induction l1 as [| q l1 IH]; intros acc; simpl.
  - by rewrite (proj2 (String.eqb_neq _ _) Hne), Hp.
  - assert (Hrest : forall q', q' ∈ l1 -> lbv1.Name q' <> myName ->
              exists rs, convertsTo q' rs)
      by (intros q' Hq'; apply Hl1; by apply list_elem_of_further).
    destruct (String.eqb_spec (lbv1.Name q) myName) as [Heq | Hneq]; simpl; [by apply IH |].
    destruct (Hl1 q (list_elem_of_here _ _) Hneq) as [r Hr]. unfold convertsTo in Hr.
    rewrite Hr. by apply IH.
Qed.

(** X3.  [getOtherPoolsRanges], the cache listing its pools, lists the
    cache once.  When the ranges of every stored pool of another name
    convert, it returns their range sets, one for each such pool, in the
    order of the listing; the pools called [myName] contribute nothing,
    and their ranges are not even converted.  Otherwise it returns the
    conversion error of the first stored pool of another name whose
    ranges do not convert. *)
Theorem getOtherPoolsRanges_result (i : ipPoolValidator) (myName : string) :
  listError (ipPoolCache i) = None ->
  reads (getOtherPoolsRanges i myName) = [labels.Everything]
  /\ ((forall p, p ∈ stored (ipPoolCache i) -> lbv1.Name p <> myName ->
         exists rs, convertsTo p rs) ->
      exists rss, outcome (getOtherPoolsRanges i myName) = Ok rss
        /\ Forall2 convertsTo
             (filter (fun p => lbv1.Name p <> myName) (stored (ipPoolCache i))) rss)
  /\ (forall l1 p l2 e, stored (ipPoolCache i) = (l1 ++ p :: l2)%list ->
      (forall q, q ∈ l1 -> lbv1.Name q <> myName -> exists rs, convertsTo q rs) ->
      lbv1.Name p <> myName ->
      LBRangesToAllocatorRangeSet (lbv1.Ranges (lbv1.Spec p)) = Err e ->
      outcome (getOtherPoolsRanges i myName) = Err e).
Proof.
  intros Hlist. rewrite (getOtherPoolsRanges_ok i myName Hlist).
  unfold reads, outcome. cbn [fst snd]. split; [done |]. split.
  - intros Hall.
    destruct (appendOtherRanges_converts myName _ [] Hall) as [rss Hrss].
    exists rss. split; [done |].
    destruct (appendOtherRanges_Ok myName _ [] rss Hrss) as (rss' & -> & H). done.
  - intros l1 p l2 e -> Hl1 Hne Hp. by apply appendOtherRanges_Err.
Qed.

(** ** The steps of [Create] and [Update] *)

Lemma Create_steps (i : ipPoolValidator) (req : Request) (pool : lbv1.IPPool) :
  Create i req pool =
    match lbv1.Ranges (lbv1.Spec pool) with
    | [] => ([], Err (CreateError (lbv1.Name pool) EmptyRangeError))
    | _ :: _ =>
        match LBRangesToAllocatorRangeSet (lbv1.Ranges (lbv1.Spec pool)) with
        | Err e => ([], Err (CreateError (lbv1.Name pool) e))
        | Ok rs =>
            match getOtherPoolsRanges i (lbv1.Name pool) with
            | (tr, Err e) => (tr, Err (CreateError (lbv1.Name pool) e))
            | (tr, Ok others) =>
                match checkRange rs others with
                | Some e => (tr, Err (CreateError (lbv1.Name pool) e))
                | None =>
                    ((tr ++ reads (checkSelector i pool))%list,
                     match outcome (checkSelector i pool) with
                     | Err e => Err (CreateError (lbv1.Name pool) e)
                     | Ok _ => Ok tt
                     end)
                end
            end
        end
    end.
Proof.
  unfold Create. rewrite length_eqb_0.
  destruct (lbv1.Ranges (lbv1.Spec pool)) as [| d ds] eqn:Hr; [done |]. rewrite <- Hr.
  unfold mbind, M_bind, pure, wrapping, reads, outcome.
  destruct (LBRangesToAllocatorRangeSet _) as [rs | e]; [| done]. cbn [bind app].
  destruct (getOtherPoolsRanges i (lbv1.Name pool)) as [tr [others | e]]; [| done].
  cbn [bind app].
  destruct (checkRange rs others) as [e |]; cbn; [by rewrite app_nil_r |].
  destruct (checkSelector i pool) as [tr' [[] | e]]; cbn; by rewrite ?app_nil_r.
Qed.

Lemma Update_steps (i : ipPoolValidator) (req : Request) (oldObj pool : lbv1.IPPool) :
  lbv1.DeletionTimestamp pool = None ->
  Update i req oldObj pool =
    match lbv1.Ranges (lbv1.Spec pool) with
    | [] => ([], Err (UpdateError (lbv1.Name pool) EmptyRangeError))
    | _ :: _ =>
        match LBRangesToAllocatorRangeSet (lbv1.Ranges (lbv1.Spec pool)) with
        | Err e => ([], Err (UpdateError (lbv1.Name pool) e))
        | Ok rs =>
            match getOtherPoolsRanges i (lbv1.Name pool) with
            | (tr, Err e) => (tr, Err (UpdateError (lbv1.Name pool) e))
            | (tr, Ok others) =>
                match checkRange rs others with
                | Some e => (tr, Err (UpdateError (lbv1.Name pool) e))
                | None =>
                    match checkAllocated rs (lbv1.Allocated (lbv1.Status pool)) with
                    | Some e => (tr, Err (UpdateError (lbv1.Name pool) e))
                    | None =>
                        ((tr ++ reads (checkSelector i pool))%list,
                         match outcome (checkSelector i pool) with
                         | Err e => Err (UpdateError (lbv1.Name pool) e)
                         | Ok _ => Ok tt
                         end)
                    end
                end
            end
        end
    end.
Proof.
  intros Hdel. unfold Update.
  rewrite bool_decide_eq_false_2 by (rewrite Hdel; intros H; done).
  rewrite length_eqb_0.
  destruct (lbv1.Ranges (lbv1.Spec pool)) as [| d ds] eqn:Hr; [done |]. rewrite <- Hr.
  unfold mbind, M_bind, pure, wrapping, reads, outcome.
  destruct (LBRangesToAllocatorRangeSet _) as [rs | e]; [| done]. cbn [bind app].
  destruct (getOtherPoolsRanges i (lbv1.Name pool)) as [tr [others | e]]; [| done].
  cbn [bind app].
  destruct (checkRange rs others) as [e |]; cbn; [by rewrite app_nil_r |].
  destruct (checkAllocated rs _) as [e |]; cbn; [by rewrite app_nil_r |].
  destruct (checkSelector i pool) as [tr' [[] | e]]; cbn; by rewrite ?app_nil_r.
Qed.

(** ** What an accepted pool satisfies *)

Lemma Forall2_convertsTo_elem (pools : list lbv1.IPPool)
    (rss : list allocator.RangeSet) (p : lbv1.IPPool) :
  Forall2 convertsTo pools rss -> p ∈ pools ->
  exists o, o ∈ rss /\ convertsTo p o.
Proof.
  intros Hall Hin. apply list_elem_of_lookup in Hin as [k Hk].
  destruct (Forall2_lookup_l _ _ _ _ _ Hall Hk) as (o & Ho & Hc).
  exists o. split; [| done]. apply list_elem_of_lookup. by exists k.
Qed.

(** X4.  A pool that [Create] accepts has ranges, they convert, no two
    of them share an address, no address of them lies in the ranges of
    a stored pool of another name (whose ranges all convert), and the
    selector check passes; and the cache listed its pools. *)
Theorem Create_accepts_sound (i : ipPoolValidator) (req : Request) (pool : lbv1.IPPool) :
  outcome (Create i req pool) = Ok tt ->
  listError (ipPoolCache i) = None
  /\ lbv1.Ranges (lbv1.Spec pool) <> []
  /\ exists rs, convertsTo pool rs /\ pairwiseApart rs
       /\ (forall p, p ∈ stored (ipPoolCache i) -> lbv1.Name p <> lbv1.Name pool ->
             exists o, convertsTo p o /\ allocator.disjoint rs o)
       /\ outcome (checkSelector i pool) = Ok tt.
Proof.
  rewrite Create_steps.
  destruct (lbv1.Ranges (lbv1.Spec pool)) as [| d ds] eqn:Hr; [done |]. rewrite <- Hr.
  destruct (LBRangesToAllocatorRangeSet _) as [rs | e] eqn:Hconv; [| done].
  destruct (listError (ipPoolCache i)) as [e |] eqn:Hlist.
  { by rewrite (getOtherPoolsRanges_err i _ e Hlist). }
  rewrite (getOtherPoolsRanges_ok i _ Hlist).
  destruct (appendOtherRanges _ _ []) as [others | e] eqn:Hothers; [| done].
  destruct (checkRange rs others) as [e |] eqn:Hrange; [done |].
  unfold outcome at 1. cbn [snd]. intros Hsel.
  split; [done |]. split; [by rewrite Hr |]. exists rs. split; [done |].
  unfold checkRange in Hrange.
  destruct (checkRangeItself rs) eqn:Hself; [done |].
  split; [by apply checkRangeItself_None_apart |]. split.
  - intros p Hin Hne.
    destruct (appendOtherRanges_Ok _ _ [] others Hothers) as (rss' & -> & Hall).
    destruct (Forall2_convertsTo_elem _ rss' p Hall) as (o & Ho & Hc).
    { by apply list_elem_of_filter. }
    exists o. split; [done |]. apply not_Overlaps_disjoint.
    by apply (proj1 (checkRangeOthers_None_iff rs rss') Hrange).
  - by destruct (outcome (checkSelector i pool)) as [[] | e].
Qed.

(** X5.  [Update] of a pool that is not being deleted accepts exactly
    when [Create] accepts the pool and the allocation check passes on
    its converted ranges; every allocated address of an accepted pool
    then parses and lies in its ranges. *)
Theorem Update_accepts_iff (i : ipPoolValidator) (req : Request)
    (oldObj pool : lbv1.IPPool) :
  lbv1.DeletionTimestamp pool = None ->
  (outcome (Update i req oldObj pool) = Ok tt
   <-> outcome (Create i req pool) = Ok tt
       /\ exists rs, convertsTo pool rs
            /\ checkAllocated rs (lbv1.Allocated (lbv1.Status pool)) = None)
  /\ (enumerates (mapKeys (lbv1.Allocated (lbv1.Status pool)))
        (lbv1.Allocated (lbv1.Status pool)) ->
      outcome (Update i req oldObj pool) = Ok tt ->
      exists rs, convertsTo pool rs
        /\ forall ipStr, is_Some (lbv1.Allocated (lbv1.Status pool) !! ipStr) ->
             allocatedInside rs ipStr).
Proof.
  intros Hdel.
  assert (Hiff : outcome (Update i req oldObj pool) = Ok tt
    <-> outcome (Create i req pool) = Ok tt
        /\ exists rs, convertsTo pool rs
             /\ checkAllocated rs (lbv1.Allocated (lbv1.Status pool)) = None).
  { rewrite (Update_steps i req oldObj pool Hdel), Create_steps. unfold convertsTo.
    destruct (lbv1.Ranges (lbv1.Spec pool)) as [| d ds] eqn:Hr; [by split; [| intros []] |].
    rewrite <- Hr.
    destruct (LBRangesToAllocatorRangeSet _) as [rs | e] eqn:Hconv;
      [| by split; [| intros []]].
    destruct (getOtherPoolsRanges i (lbv1.Name pool)) as [tr [others | e]];
      [| by split; [| intros []]].
    destruct (checkRange rs others) as [e |]; [by split; [| intros []] |].
    destruct (checkAllocated rs _) as [e |] eqn:Halloc.
    - split; [done |]. intros [_ (rs' & [= <-] & Hnone)]. congruence.
    - unfold outcome at 1 3. cbn [snd].
      destruct (outcome (checkSelector i pool)) as [[] | e]; split.
      + intros _. split; [done |]. by exists rs.
      + done.
      + done.
      + by intros [H _]. }
  split; [done |]. intros Henum Hacc.
  destruct (proj1 Hiff Hacc) as [_ (rs & Hconv & Halloc)].
  exists rs. split; [done |].
  unfold checkAllocated in Halloc.
  by apply (checkAllocatedIn_verdict rs _ _ Henum).
Qed.

(** ** Failures of the collaborators *)

(** X6.  Ranges that do not convert.  When the ranges of the pool under
    admission do not convert, [Create] and [Update] return the
    conversion error before listing the cache.  When they convert but
    the ranges of some stored pool of another name do not, [Create] and
    [Update] return that pool's conversion error after one listing,
    whatever the ranges, allocations and selector of the pool under
    admission are: one such stored pool blocks every other pool. *)
Theorem conversion_failures (i : ipPoolValidator) (req : Request)
    (oldObj pool : lbv1.IPPool) :
  lbv1.Ranges (lbv1.Spec pool) <> [] ->
  (forall e,
      LBRangesToAllocatorRangeSet (lbv1.Ranges (lbv1.Spec pool)) = Err e ->
      Create i req pool = ([], Err (CreateError (lbv1.Name pool) e))
      /\ (lbv1.DeletionTimestamp pool = None ->
          Update i req oldObj pool = ([], Err (UpdateError (lbv1.Name pool) e))))
  /\ (forall rs l1 p l2 e,
      convertsTo pool rs ->
      listError (ipPoolCache i) = None ->
      stored (ipPoolCache i) = (l1 ++ p :: l2)%list ->
      (forall q, q ∈ l1 -> lbv1.Name q <> lbv1.Name pool -> exists o, convertsTo q o) ->
      lbv1.Name p <> lbv1.Name pool ->
      LBRangesToAllocatorRangeSet (lbv1.Ranges (lbv1.Spec p)) = Err e ->
      Create i req pool = ([labels.Everything], Err (CreateError (lbv1.Name pool) e))
      /\ (lbv1.DeletionTimestamp pool = None ->
          Update i req oldObj pool
          = ([labels.Everything], Err (UpdateError (lbv1.Name pool) e)))).
Proof.
  intros Hne. split.
  - intros e Hconv. split; [| intros Hdel; rewrite (Update_steps _ _ _ _ Hdel)];
      rewrite ?Create_steps, Hconv; by destruct (lbv1.Ranges (lbv1.Spec pool)).
  - intros rs l1 p l2 e Hconv Hlist Hst Hl1 Hp Hperr. unfold convertsTo in Hconv.
    assert (Hothers : getOtherPoolsRanges i (lbv1.Name pool)
                      = ([labels.Everything], Err e)).
    { rewrite (getOtherPoolsRanges_ok i _ Hlist), Hst.
      by rewrite (appendOtherRanges_Err _ l1 l2 p e [] Hl1 Hp Hperr). }
    split; [| intros Hdel; rewrite (Update_steps _ _ _ _ Hdel)];
      rewrite ?Create_steps, Hconv, Hothers; by destruct (lbv1.Ranges (lbv1.Spec pool)).
Qed.

(** X7.  A cache whose listings fail.  [Create], and [Update] of a pool
    that is not being deleted, given ranges that convert, return the
    error of the listing, wrapped, after that one listing; no pool is
    accepted.  The two selector checks that list the cache return the
    error of the listing as it is. *)
Theorem listing_failure (i : ipPoolValidator) (req : Request)
    (oldObj pool : lbv1.IPPool) (e : error) :
  listError (ipPoolCache i) = Some e ->
  (forall rs, lbv1.Ranges (lbv1.Spec pool) <> [] -> convertsTo pool rs ->
     Create i req pool = ([labels.Everything], Err (CreateError (lbv1.Name pool) e))
     /\ (lbv1.DeletionTimestamp pool = None ->
         Update i req oldObj pool
         = ([labels.Everything], Err (UpdateError (lbv1.Name pool) e))))
  /\ outcome (Create i req pool) <> Ok tt
  /\ checkGlobalIPPool i pool = ([globalSelector], Err e)
  /\ checkSelectorWithOthers i pool = ([labels.Everything], Err e).
Proof.
  intros Hlist.
  pose proof (getOtherPoolsRanges_err i (lbv1.Name pool) e Hlist) as Hothers.
  split; [| split; [| split]].
  - intros rs Hne Hconv. unfold convertsTo in Hconv.
    split; [| intros Hdel; rewrite (Update_steps _ _ _ _ Hdel)];
      rewrite ?Create_steps, Hconv, Hothers; by destruct (lbv1.Ranges (lbv1.Spec pool)).
  - rewrite Create_steps, Hothers.
    destruct (lbv1.Ranges (lbv1.Spec pool)); [done |].
    by destruct (LBRangesToAllocatorRangeSet _).
  - unfold checkGlobalIPPool, globalSelector. by rewrite (List_err _ _ e Hlist).
  - unfold checkSelectorWithOthers. by rewrite (List_err _ _ e Hlist).
Qed.

(** ** The listings a validation makes *)

Lemma reads_getOtherPoolsRanges (i : ipPoolValidator) (myName : string) :
  reads (getOtherPoolsRanges i myName) = [labels.Everything].
Proof.
  destruct (listError (ipPoolCache i)) as [e |] eqn:Hlist.
  - by rewrite (getOtherPoolsRanges_err i myName e Hlist).
  - by rewrite (getOtherPoolsRanges_ok i myName Hlist).
Qed.

Lemma reads_checkSelector (i : ipPoolValidator) (pool : lbv1.IPPool) :
  reads (checkSelector i pool)
  = [if isGlobalIPPool pool then globalSelector else labels.Everything]
  \/ (reads (checkSelector i pool) = []
      /\ exists e, outcome (checkSelector i pool) = Err e).
Proof.
  unfold checkSelector. destruct (isGlobalIPPool pool).
  - left. unfold checkGlobalIPPool, globalSelector, List, mbind, M_bind, reads.
    destruct (listError (ipPoolCache i)); cbn; [done |].
    by destruct (firstOtherPool pool _).
  - destruct (checkSelectorItself pool) as [e |]; [right; split; [done | by eexists] |].
    left. unfold checkSelectorWithOthers, List, mbind, M_bind, reads.
    destruct (listError (ipPoolCache i)); cbn; [done |].
    by destruct (checkSelectorWithEach pool _).
Qed.

(** The listings of a validation whose last step is the selector check. *)
Lemma reads_then_checkSelector (i : ipPoolValidator) (pool : lbv1.IPPool)
    (w : error -> error) :
  let second := if isGlobalIPPool pool then globalSelector else labels.Everything in
  let m : M unit :=
    (([labels.Everything] ++ reads (checkSelector i pool))%list,
     match outcome (checkSelector i pool) with
     | Err e => Err (w e)
     | Ok _ => Ok tt
     end) in
  reads m `prefix_of` [labels.Everything; second]
  /\ (outcome m = Ok tt -> reads m = [labels.Everything; second]).
Proof.
  intros second m. subst m. unfold reads at 1 3, outcome at 1. cbn [fst snd].
  destruct (reads_checkSelector i pool) as [-> | [-> [e ->]]]; fold second.
  - split; [by exists [] | done].
  - split; [by exists [second] | done].
Qed.

(** X8.  [Create] and [Update] list the cache at most twice: first all
    pools, for the range check, then, if the checks get that far, the
    global pools when the pool under admission is marked global and all
    pools when it is not.  An accepted pool has cost exactly these two
    listings, unless it is an update of a pool being deleted, which
    costs none; [Delete] never lists the cache. *)
Theorem cache_listings (i : ipPoolValidator) (req : Request)
    (oldObj pool : lbv1.IPPool) :
  reads (Create i req pool)
    `prefix_of` [labels.Everything;
                 if isGlobalIPPool pool then globalSelector else labels.Everything]
  /\ reads (Update i req oldObj pool)
       `prefix_of` [labels.Everything;
                    if isGlobalIPPool pool then globalSelector else labels.Everything]
  /\ (outcome (Create i req pool) = Ok tt ->
      reads (Create i req pool)
      = [labels.Everything;
         if isGlobalIPPool pool then globalSelector else labels.Everything])
  /\ (lbv1.DeletionTimestamp pool = None ->
      outcome (Update i req oldObj pool) = Ok tt ->
      reads (Update i req oldObj pool)
      = [labels.Everything;
         if isGlobalIPPool pool then globalSelector else labels.Everything])
  /\ reads (Delete i req oldObj) = [].
Proof.
  set (second := if isGlobalIPPool pool then globalSelector else labels.Everything).
  pose proof (reads_getOtherPoolsRanges i (lbv1.Name pool)) as Hfirst.
  assert (Hnil : forall l : list labels.Selector, [] `prefix_of` l)
    by (intros l; by exists l).
  assert (Hone : [labels.Everything] `prefix_of` [labels.Everything; second])
    by (by exists [second]).
  assert (Hcreate : reads (Create i req pool) `prefix_of` [labels.Everything; second]
            /\ (outcome (Create i req pool) = Ok tt ->
                reads (Create i req pool) = [labels.Everything; second])).
  { rewrite Create_steps.
    destruct (lbv1.Ranges (lbv1.Spec pool)); [by split |].
    destruct (LBRangesToAllocatorRangeSet _) as [rs | e]; [| by split].
    destruct (getOtherPoolsRanges i (lbv1.Name pool)) as [tr [others | e]];
      unfold reads in Hfirst; cbn [fst] in Hfirst; subst tr;
      [| by split].
    destruct (checkRange rs others); [by split |].
    apply (reads_then_checkSelector i pool (CreateError (lbv1.Name pool))). }
  assert (Hupdate : reads (Update i req oldObj pool)
                      `prefix_of` [labels.Everything; second]
            /\ (lbv1.DeletionTimestamp pool = None ->
                outcome (Update i req oldObj pool) = Ok tt ->
                reads (Update i req oldObj pool) = [labels.Everything; second])).
  { destruct (lbv1.DeletionTimestamp pool) as [ts |] eqn:Hdel.
    { unfold Update. rewrite bool_decide_eq_true_2 by (by rewrite Hdel). by split. }
    rewrite (Update_steps i req oldObj pool Hdel).
    destruct (lbv1.Ranges (lbv1.Spec pool)); [by split |].
    destruct (LBRangesToAllocatorRangeSet _) as [rs | e]; [| by split].
    destruct (getOtherPoolsRanges i (lbv1.Name pool)) as [tr [others | e]];
      unfold reads in Hfirst; cbn [fst] in Hfirst; subst tr;
      [| by split].
    destruct (checkRange rs others); [by split |].
    destruct (checkAllocated rs _); [by split |].
    destruct (reads_then_checkSelector i pool (UpdateError (lbv1.Name pool))) as [H1 H2].
    split; [exact H1 | intros _; exact H2]. }
  destruct Hcreate as [Hc1 Hc2]. destruct Hupdate as [Hu1 Hu2].
  repeat split; [done | done | done | done |].
  unfold Delete. by destruct (negb _).
Qed.

(** ** What the cross-pool check accepts *)

Lemma checkScopeAgainst_Some_inv (pool p : lbv1.IPPool) (ts : list lbv1.Tuple)
    (e : error) :
  checkScopeAgainst pool p ts = Some e ->
  exists t, t ∈ ts /\ entryMatchedBy pool p t = true
    /\ e = ScopeOverlapError (lbv1.Name p) (lbv1.Project t)
             (lbv1.Namespace t) (lbv1.GuestCluster t).
Proof.
  unfold entryMatchedBy, networkOf. induction ts as [| x ts IH]; simpl; [done |].
  destruct (ipam.Matches _ (requirementOf _ x)) eqn:Hx.
  - intros [= <-]. exists x. split; [apply list_elem_of_here | done].
  - intros H. destruct (IH H) as (t & Hin & Hrest).
    exists t. split; [by apply list_elem_of_further | done].
Qed.

(** The two conflicts the cross-pool check knows. *)
Lemma checkSelectorWith_Some_shape (pool p : lbv1.IPPool) (e : error) :
  checkSelectorWith pool p = Some e ->
  comparedWith pool p
  /\ ((priorityOf p <> 0%N /\ priorityOf p = priorityOf pool
       /\ e = DuplicatePriorityError (lbv1.Name p))
      \/ (priorityOf p = 0%N /\ priorityOf pool = 0%N
          /\ exists t, t ∈ scopeOf pool /\ entryMatchedBy pool p t = true
               /\ e = ScopeOverlapError (lbv1.Name p) (lbv1.Project t)
                        (lbv1.Namespace t) (lbv1.GuestCluster t))).
Proof.
  intros H. destruct (checkSelectorWith_Some pool p e H) as [Hcmp Hprio].
  split; [done |].
  destruct (N.eq_dec (priorityOf p) 0%N) as [Hz | Hnz].
  - right. assert (Hz' : priorityOf pool = 0%N) by congruence.
    rewrite (checkSelectorWith_zero pool p Hcmp Hz Hz') in H.
    split; [done |]. split; [done |]. by apply checkScopeAgainst_Some_inv.
  - left. rewrite (checkSelectorWith_same_priority pool p Hcmp Hnz Hprio) in H.
    injection H as <-. done.
Qed.

Lemma checkSelectorWith_None_iff (pool p : lbv1.IPPool) :
  checkSelectorWith pool p = None
  <-> (comparedWith pool p ->
       (priorityOf p <> 0%N -> priorityOf p <> priorityOf pool)
       /\ (priorityOf p = 0%N -> priorityOf pool = 0%N -> ~ scopeMatchedBy pool p)).
Proof.
  split.
  - intros Hnone Hcmp. split.
    + intros Hnz Heq.
      rewrite (checkSelectorWith_same_priority pool p Hcmp Hnz Heq) in Hnone. done.
    + intros Hz Hz' (t & Hin & Hm).
      rewrite (checkSelectorWith_zero pool p Hcmp Hz Hz') in Hnone.
      rewrite (proj1 (checkScopeAgainst_None pool p _) Hnone t Hin) in Hm. done.
  - intros H. destruct (checkSelectorWith pool p) as [e |] eqn:Hres; [| done].
    destruct (checkSelectorWith_Some_shape pool p e Hres) as [Hcmp Hshape].
    destruct (H Hcmp) as [Hdup Hscope].
    destruct Hshape as [(Hnz & Heq & _) | (Hz & Hz' & t & Hin & Hm & _)].
    + by destruct (Hdup Hnz).
    + destruct (Hscope Hz Hz'). by exists t.
Qed.

Lemma checkSelectorWithEach_None_iff (pool : lbv1.IPPool) (pools : list lbv1.IPPool) :
  checkSelectorWithEach pool pools = None
  <-> forall p, p ∈ pools -> checkSelectorWith pool p = None.
Proof.
  induction pools as [| q pools IH]; simpl.
  - split; [| done]. intros _ p Hp. by apply elem_of_nil in Hp.
  - destruct (checkSelectorWith pool q) as [e |] eqn:Hq.
    + split; [done |]. intros H. specialize (H q (list_elem_of_here _ _)). congruence.
    + rewrite IH. split.
      * intros H p [-> | Hp]%elem_of_cons; [done | by apply H].
      * intros H p Hp. apply H. by apply list_elem_of_further.
Qed.

Lemma checkSelectorWithEach_Some (pool : lbv1.IPPool) (pools : list lbv1.IPPool)
    (e : error) :
  checkSelectorWithEach pool pools = Some e ->
  exists p, p ∈ pools /\ checkSelectorWith pool p = Some e.
Proof.
  induction pools as [| q pools IH]; simpl; [done |].
  destruct (checkSelectorWith pool q) as [e' |] eqn:Hq.
  - intros [= <-]. exists q. split; [apply list_elem_of_here | done].
  - intros H. destruct (IH H) as (p & Hp & Hres).
    exists p. split; [by apply list_elem_of_further | done].
Qed.

(** X9.  The cross-pool check, the cache listing its pools, accepts
    exactly when every stored pool of another name that is not marked
    global has, if its priority is not zero, a priority other than that
    of the pool under admission and, if both priorities are zero, a
    selector that matches no scope entry of the pool under admission;
    so whether it accepts does not depend on the order of the listing.
    An error it returns is the duplicate-priority error or the
    scope-overlap error, naming a stored pool for which that condition
    fails. *)
Theorem cross_pool_check_accepts_iff (i : ipPoolValidator) (pool : lbv1.IPPool) :
  listError (ipPoolCache i) = None ->
  (outcome (checkSelectorWithOthers i pool) = Ok tt
   <-> forall p, p ∈ stored (ipPoolCache i) -> comparedWith pool p ->
         (priorityOf p <> 0%N -> priorityOf p <> priorityOf pool)
         /\ (priorityOf p = 0%N -> priorityOf pool = 0%N -> ~ scopeMatchedBy pool p))
  /\ (forall e, outcome (checkSelectorWithOthers i pool) = Err e ->
      exists p, p ∈ stored (ipPoolCache i) /\ comparedWith pool p
        /\ ((priorityOf p <> 0%N /\ priorityOf p = priorityOf pool
             /\ e = DuplicatePriorityError (lbv1.Name p))
            \/ (priorityOf p = 0%N /\ priorityOf pool = 0%N
                /\ exists t, t ∈ scopeOf pool /\ entryMatchedBy pool p t = true
                     /\ e = ScopeOverlapError (lbv1.Name p) (lbv1.Project t)
                              (lbv1.Namespace t) (lbv1.GuestCluster t)))).
Proof.
  intros Hlist. rewrite (checkSelectorWithOthers_ok i pool Hlist).
  unfold outcome. cbn [snd]. split.
  - destruct (checkSelectorWithEach pool _) as [e |] eqn:Hres.
    + split; [done |]. intros H.
      assert (Hnone : checkSelectorWithEach pool (stored (ipPoolCache i)) = None);
        [| congruence].
      apply checkSelectorWithEach_None_iff. intros p Hp.
      apply checkSelectorWith_None_iff. by apply H.
    + split; [| done]. intros _ p Hp.
      apply checkSelectorWith_None_iff.
      by apply (proj1 (checkSelectorWithEach_None_iff pool _) Hres).
  - intros e. destruct (checkSelectorWithEach pool _) as [e' |] eqn:Hres; [| done].
    intros [= <-].
    destruct (checkSelectorWithEach_Some pool _ e' Hres) as (p & Hp & Hwith).
    exists p. split; [done |]. by apply checkSelectorWith_Some_shape.
Qed.

(** ** Pools the checks pass over *)

Lemma checkSelectorWithEach_filter (pool : lbv1.IPPool) (P : lbv1.IPPool -> Prop)
    `{!forall p, Decision (P p)} (pools : list lbv1.IPPool) :
  (forall p, ~ P p -> checkSelectorWith pool p = None) ->
  checkSelectorWithEach pool (filter P pools) = checkSelectorWithEach pool pools.
Proof.
  intros Hskip. induction pools as [| q pools IH]; [done |].
  destruct (decide (P q)) as [Hq | Hq].
  - rewrite filter_cons_True by done. simpl. by rewrite IH.
  - rewrite filter_cons_False by done. simpl. by rewrite (Hskip q Hq).
Qed.

Lemma checkSelectorWith_same_name (pool p : lbv1.IPPool) :
  ~ lbv1.Name p <> lbv1.Name pool -> checkSelectorWith pool p = None.
Proof.
  intros H. unfold checkSelectorWith.
  destruct (String.eqb_spec (lbv1.Name p) (lbv1.Name pool)); [done | by destruct H].
Qed.

Lemma checkSelectorWith_global (pool p : lbv1.IPPool) :
  ~ isGlobalIPPool p = false -> checkSelectorWith pool p = None.
Proof.
  intros H. unfold checkSelectorWith.
  destruct (isGlobalIPPool p); [by rewrite orb_true_r | done].
Qed.

Lemma appendOtherRanges_filter (myName : string) (pools : list lbv1.IPPool)
    (acc : list allocator.RangeSet) :
  appendOtherRanges myName (filter (fun p => lbv1.Name p <> myName) pools) acc
  = appendOtherRanges myName pools acc.
Proof.
  revert acc. induction pools as [| q pools IH]; intros acc; [done |].
  destruct (String.eqb_spec (lbv1.Name q) myName) as [Heq | Hne].
  - rewrite filter_cons_False by (intros H; by apply H). simpl.
    rewrite (proj2 (String.eqb_eq _ _) Heq). simpl. apply IH.
  - rewrite filter_cons_True by done. simpl.
    rewrite (proj2 (String.eqb_neq _ _) Hne). simpl.
    destruct (LBRangesToAllocatorRangeSet _); [apply IH | done].
Qed.

Lemma firstOtherPool_filter (pool : lbv1.IPPool) (P : lbv1.IPPool -> Prop)
    `{!forall p, Decision (P p)} (pools : list lbv1.IPPool) :
  firstOtherPool pool
    (filter P (filter (fun p => lbv1.Name p <> lbv1.Name pool) pools))
  = firstOtherPool pool (filter P pools).
Proof.
  induction pools as [| q pools IH]; [done |].
  destruct (String.eqb_spec (lbv1.Name q) (lbv1.Name pool)) as [Heq | Hne].
  - rewrite (filter_cons_False (fun p => lbv1.Name p <> lbv1.Name pool))
      by (intros Hn; by apply Hn).
    destruct (decide (P q)).
    + rewrite (filter_cons_True P) by done. simpl.
      by rewrite (proj2 (String.eqb_eq _ _) Heq).
    + by rewrite (filter_cons_False P) by done.
  - rewrite (filter_cons_True (fun p => lbv1.Name p <> lbv1.Name pool)) by done.
    destruct (decide (P q)).
    + rewrite !(filter_cons_True P) by done. simpl.
      by rewrite (proj2 (String.eqb_neq _ _) Hne).
    + by rewrite !(filter_cons_False P) by done.
Qed.

Lemma getOtherPoolsRanges_withoutPool (i : ipPoolValidator) (myName : string) :
  getOtherPoolsRanges (NewIPPoolValidator (withoutPool myName (ipPoolCache i))) myName
  = getOtherPoolsRanges i myName.
Proof.
  destruct (listError (ipPoolCache i)) as [e |] eqn:Hlist.
  - rewrite (getOtherPoolsRanges_err i myName e Hlist).
    by apply getOtherPoolsRanges_err.
  - rewrite (getOtherPoolsRanges_ok i myName Hlist).
    rewrite getOtherPoolsRanges_ok by done.
    cbn [NewIPPoolValidator ipPoolCache withoutPool stored].
    by rewrite appendOtherRanges_filter.
Qed.

Lemma checkSelector_withoutPool (i : ipPoolValidator) (pool : lbv1.IPPool) :
  checkSelector (NewIPPoolValidator (withoutPool (lbv1.Name pool) (ipPoolCache i))) pool
  = checkSelector i pool.
Proof.
  unfold checkSelector. destruct (isGlobalIPPool pool).
  - destruct (listError (ipPoolCache i)) as [e |] eqn:Hlist.
    + unfold checkGlobalIPPool. rewrite (List_err (ipPoolCache i) _ e Hlist).
      by rewrite (List_err _ _ e) by done.
    + rewrite (checkGlobalIPPool_ok i pool Hlist).
      rewrite checkGlobalIPPool_ok by done.
      cbn [NewIPPoolValidator ipPoolCache withoutPool stored].
      by rewrite firstOtherPool_filter.
  - destruct (checkSelectorItself pool); [done |].
    destruct (listError (ipPoolCache i)) as [e |] eqn:Hlist.
    + unfold checkSelectorWithOthers. rewrite (List_err (ipPoolCache i) _ e Hlist).
      by rewrite (List_err _ _ e) by done.
    + rewrite (checkSelectorWithOthers_ok i pool Hlist).
      rewrite checkSelectorWithOthers_ok by done.
      cbn [NewIPPoolValidator ipPoolCache withoutPool stored].
      rewrite checkSelectorWithEach_filter; [done |].
      apply checkSelectorWith_same_name.
Qed.

(** X10.  The validator never compares a pool with a stored pool of its
    own name: [Create] and [Update] give the same result, error and
    listings included, on the cache without the pools of that name.  The
    stored copy of a pool thus never stands in the way of its update. *)
Theorem validation_passes_over_own_name (i : ipPoolValidator) (req : Request)
    (oldObj pool : lbv1.IPPool) :
  Create (NewIPPoolValidator (withoutPool (lbv1.Name pool) (ipPoolCache i))) req pool
  = Create i req pool
  /\ Update (NewIPPoolValidator (withoutPool (lbv1.Name pool) (ipPoolCache i)))
       req oldObj pool
     = Update i req oldObj pool.
Proof.
  split.
  - rewrite !Create_steps.
    by rewrite getOtherPoolsRanges_withoutPool, checkSelector_withoutPool.
  - destruct (lbv1.DeletionTimestamp pool) as [ts |] eqn:Hdel.
    + unfold Update. by rewrite !bool_decide_eq_true_2 by (by rewrite Hdel).
    + rewrite !(Update_steps _ req oldObj pool Hdel).
      by rewrite getOtherPoolsRanges_withoutPool, checkSelector_withoutPool.
Qed.

Lemma global_listing_of_global (pools : list lbv1.IPPool) :
  filter (fun p => labels.Matches
            (labels.SetSelector {[ KeyGlobalIPPool := ValueTrue ]})
            (lbv1.Labels p) = true)
    (filter (fun p => isGlobalIPPool p = true) pools)
  = filter (fun p => labels.Matches
              (labels.SetSelector {[ KeyGlobalIPPool := ValueTrue ]})
              (lbv1.Labels p) = true) pools.
Proof.
  induction pools as [| q l IH]; [done |].
  destruct (isGlobalIPPool q) eqn:Hq.
  - rewrite (filter_cons_True (fun p => isGlobalIPPool p = true)) by done.
    rewrite !filter_cons_True by (by rewrite Matches_global). by rewrite IH.
  - rewrite (filter_cons_False (fun p => isGlobalIPPool p = true)) by congruence.
    rewrite filter_cons_False by (rewrite Matches_global; congruence). done.
Qed.

(** X11.  On selectors, global and scoped pools never meet.  The
    selector check of a pool that is not marked global gives the same
    result on the cache without the global pools; the selector check of
    a pool marked global gives the same result on the cache without the
    pools that are not marked global. *)
Theorem selector_check_keeps_global_apart (i : ipPoolValidator) (pool : lbv1.IPPool) :
  (isGlobalIPPool pool = false ->
   checkSelector (NewIPPoolValidator (withoutGlobal (ipPoolCache i))) pool
   = checkSelector i pool)
  /\ (isGlobalIPPool pool = true ->
      checkSelector
        (NewIPPoolValidator
           {| stored := filter (fun p => isGlobalIPPool p = true) (stored (ipPoolCache i));
              listError := listError (ipPoolCache i) |}) pool
      = checkSelector i pool).
Proof.
  split; intros Hg; unfold checkSelector; rewrite Hg.
  - destruct (checkSelectorItself pool); [done |].
    destruct (listError (ipPoolCache i)) as [e |] eqn:Hlist.
    + unfold checkSelectorWithOthers. rewrite (List_err (ipPoolCache i) _ e Hlist).
      by rewrite (List_err _ _ e) by done.
    + rewrite (checkSelectorWithOthers_ok i pool Hlist).
      rewrite checkSelectorWithOthers_ok by done.
      cbn [NewIPPoolValidator ipPoolCache withoutGlobal stored].
      rewrite checkSelectorWithEach_filter; [done |].
      apply checkSelectorWith_global.
  - destruct (listError (ipPoolCache i)) as [e |] eqn:Hlist.
    + unfold checkGlobalIPPool. rewrite (List_err (ipPoolCache i) _ e Hlist).
      by rewrite (List_err _ _ e) by done.
    + rewrite (checkGlobalIPPool_ok i pool Hlist).
      rewrite checkGlobalIPPool_ok by done.
      cbn [NewIPPoolValidator ipPoolCache stored].
      by rewrite global_listing_of_global.
Qed.

(** X12.  A pool that is not marked global, has priority 0 and an empty
    scope list passes the selector check whenever the cache lists its
    pools, whatever they are: also next to a stored pool with the same
    network, priority 0 and an empty scope list. *)
Theorem unscoped_pool_passes (i : ipPoolValidator) (pool : lbv1.IPPool) :
  listError (ipPoolCache i) = None ->
  isGlobalIPPool pool = false ->
  priorityOf pool = 0%N ->
  scopeOf pool = [] ->
  checkSelector i pool = ([labels.Everything], Ok tt).
Proof.
  unfold priorityOf, scopeOf. intros Hlist Hg Hprio Hscope.
  unfold checkSelector, checkSelectorItself. rewrite Hg, Hscope.
  cbn [checkSelectorItselfFrom].
  rewrite (checkSelectorWithOthers_ok i pool Hlist).
  assert (Hnone : checkSelectorWithEach pool (stored (ipPoolCache i)) = None);
    [| by rewrite Hnone].
  apply checkSelectorWithEach_None_iff. intros p _. unfold checkSelectorWith.
  rewrite Hprio, Hscope.
  destruct (_ || _); [done |].
  destruct (lbv1.Priority (lbv1.SpecSelector (lbv1.Spec p))) eqn:Hp; done.
Qed.

(** ** Growing ranges, released addresses *)

Lemma Contains_incl (rs rs' : allocator.RangeSet) (a : net.IP) :
  (forall r, r ∈ rs -> r ∈ rs') ->
  allocator.Contains rs a = true -> allocator.Contains rs' a = true.
Proof.
  unfold allocator.Contains. intros Hincl.
  rewrite !existsb_exists. intros (r & Hr & Ha). exists r. split; [| done].
  apply list_elem_of_In, Hincl. by apply list_elem_of_In.
Qed.

(** X13.  The allocation check keeps accepting when the range set
    grows and when allocations are released: if it passes for a range
    set and a mapping, it passes for every range set that has all those
    ranges, and for every part of the mapping. *)
Theorem checkAllocated_monotone (rs rs' : allocator.RangeSet)
    (allocated allocated' : gmap string string) :
  checkAllocated rs allocated = None ->
  ((forall r, r ∈ rs -> r ∈ rs') -> checkAllocated rs' allocated = None)
  /\ (enumerates (mapKeys allocated) allocated ->
      enumerates (mapKeys allocated') allocated' ->
      allocated' ⊆ allocated ->
      checkAllocated rs allocated' = None).
Proof.
  unfold checkAllocated. intros Hok. split.
  - intros Hincl. rewrite checkAllocatedIn_None in *. intros ipStr Hin.
    destruct (Hok ipStr Hin) as (ip & Hp & Hc).
    exists ip. split; [done |]. by apply (Contains_incl rs rs').
  - intros Hen Hen' Hsub.
    apply (checkAllocatedIn_verdict rs allocated' _ Hen'). intros ipStr [v Hv].
    apply (proj1 (checkAllocatedIn_verdict rs allocated _ Hen) Hok).
    exists v. by apply (lookup_weaken allocated' allocated).
Qed.

(** ** What [Create] accepts *)

Lemma checkRange_None_intro (r : allocator.RangeSet) (others : list allocator.RangeSet) :
  Forall allocator.wf r -> Forall (Forall allocator.wf) others ->
  pairwiseApart r -> (forall o, o ∈ others -> allocator.disjoint r o) ->
  checkRange r others = None.
Proof.
  intros Hwf Hwfo Hapart Hdis. unfold checkRange.
  assert (Hself : checkRangeItself r = None).
  { apply checkRangeItself_None_iff. intros i j r1 r2 Hij Hi Hj.
    destruct (allocator.Range_Overlaps r1 r2) eqn:Hov; [| done].
    exfalso. apply (Hapart i j r1 r2); [lia | done | done |].
    rewrite Forall_forall in Hwf.
    apply Range_Overlaps_share; [| | done]; apply Hwf;
      apply list_elem_of_lookup; eauto. }
  rewrite Hself. apply checkRangeOthers_None. intros o Ho.
  destruct (allocator.Overlaps r o) eqn:Hov; [| done].
  exfalso. apply (Overlaps_not_disjoint r o); [done | | done | by apply Hdis].
  rewrite Forall_forall in Hwfo. by apply Hwfo.
Qed.

(** X14.  [Create] rejects no pool it is meant to let through.  When the
    cache lists its pools, the pool has ranges that convert to ranges
    with [start <= end] of which no two share an address, every stored
    pool of another name has ranges that convert to ranges with
    [start <= end] sharing no address with those of the pool, and the
    selector check passes, [Create] accepts. *)
Theorem Create_accepts_complete (i : ipPoolValidator) (req : Request)
    (pool : lbv1.IPPool) (rs : allocator.RangeSet) :
  listError (ipPoolCache i) = None ->
  lbv1.Ranges (lbv1.Spec pool) <> [] ->
  convertsTo pool rs ->
  Forall allocator.wf rs ->
  pairwiseApart rs ->
  (forall p, p ∈ stored (ipPoolCache i) -> lbv1.Name p <> lbv1.Name pool ->
     exists o, convertsTo p o /\ Forall allocator.wf o /\ allocator.disjoint rs o) ->
  outcome (checkSelector i pool) = Ok tt ->
  outcome (Create i req pool) = Ok tt.
Proof.
  intros Hlist Hne Hconv Hwf Hapart Hothers Hsel. unfold convertsTo in Hconv.
  rewrite Create_steps, Hconv, (getOtherPoolsRanges_ok i _ Hlist).
  destruct (lbv1.Ranges (lbv1.Spec pool)); [done |].
  destruct (appendOtherRanges_converts (lbv1.Name pool) (stored (ipPoolCache i)) [])
    as [rss Hrss].
  { intros p Hp Hn. destruct (Hothers p Hp Hn) as (o & Ho & _). by exists o. }
  rewrite Hrss.
  destruct (appendOtherRanges_Ok _ _ [] rss Hrss) as (rss' & -> & Hall).
  cbn [app].
  assert (Heach : forall o, o ∈ rss' -> Forall allocator.wf o /\ allocator.disjoint rs o).
  { intros o Ho. apply list_elem_of_lookup in Ho as [k Hk].
    destruct (Forall2_lookup_r _ _ _ _ _ Hall Hk) as (p & Hp & Hpo).
    assert (Hin : p ∈ filter (fun p => lbv1.Name p <> lbv1.Name pool)
                      (stored (ipPoolCache i)))
      by (apply list_elem_of_lookup; by exists k).
    apply list_elem_of_filter in Hin as [Hn Hin].
    destruct (Hothers p Hin Hn) as (o' & Ho' & Hwfo & Hdis).
    unfold convertsTo in Hpo, Ho'. rewrite Hpo in Ho'. injection Ho' as <-. done. }
  rewrite checkRange_None_intro; [| done | | done |].
  - unfold outcome at 1. cbn [snd]. by rewrite Hsel.
  - apply Forall_forall. intros o Ho. by apply Heach.
  - intros o Ho. by apply Heach.
Qed.

(** ** A smaller repository *)

Lemma Create_Ok_iff (i : ipPoolValidator) (req : Request) (pool : lbv1.IPPool) :
  outcome (Create i req pool) = Ok tt
  <-> listError (ipPoolCache i) = None
      /\ lbv1.Ranges (lbv1.Spec pool) <> []
      /\ exists rs others,
           convertsTo pool rs
           /\ appendOtherRanges (lbv1.Name pool) (stored (ipPoolCache i)) [] = Ok others
           /\ checkRange rs others = None
           /\ outcome (checkSelector i pool) = Ok tt.
Proof.
  rewrite Create_steps. unfold convertsTo.
  destruct (lbv1.Ranges (lbv1.Spec pool)) as [| d ds] eqn:Hr.
  { split; [done |]. by intros (_ & H & _). }
  rewrite <- Hr.
  destruct (LBRangesToAllocatorRangeSet _) as [rs | e] eqn:Hconv.
  2: { split; [done |]. by intros (_ & _ & rs & others & H & _). }
  destruct (listError (ipPoolCache i)) as [e |] eqn:Hlist.
  { rewrite (getOtherPoolsRanges_err i _ e Hlist). split; [done |]. by intros (H & _). }
  rewrite (getOtherPoolsRanges_ok i _ Hlist).
  destruct (appendOtherRanges _ _ []) as [others | e] eqn:Hothers.
  2: { split; [done |]. by intros (_ & _ & rs' & others & _ & H & _). }
  destruct (checkRange rs others) as [e |] eqn:Hrange.
  { split; [done |]. intros (_ & _ & rs' & others' & [= <-] & [= <-] & H & _).
    congruence. }
  unfold outcome at 1. cbn [snd].
  destruct (outcome (checkSelector i pool)) as [[] | e].
  - split; [| done]. intros _. split; [done |]. split; [by rewrite Hr |].
    by exists rs, others.
  - split; [done |]. by intros (_ & _ & rs' & others' & _ & _ & _ & H).
Qed.

Lemma appendOtherRanges_fewer (myName : string) (pools pools' : list lbv1.IPPool)
    (rss : list allocator.RangeSet) :
  (forall p, p ∈ pools' -> p ∈ pools) ->
  appendOtherRanges myName pools [] = Ok rss ->
  exists rss', appendOtherRanges myName pools' [] = Ok rss'
    /\ forall o, o ∈ rss' -> o ∈ rss.
Proof.
  intros Hsub Hrss.
  destruct (appendOtherRanges_Ok myName pools [] rss Hrss) as (rss0 & -> & Hall).
  cbn [app] in *.
  assert (Hconv : forall p, p ∈ pools' -> lbv1.Name p <> myName ->
            exists o, o ∈ rss0 /\ convertsTo p o).
  { intros p Hp Hn. apply (Forall2_convertsTo_elem _ rss0 p Hall).
    apply list_elem_of_filter. split; [done | by apply Hsub]. }
  destruct (appendOtherRanges_converts myName pools' []) as [rss' Hrss'].
  { intros p Hp Hn. destruct (Hconv p Hp Hn) as (o & _ & Ho). by exists o. }
  exists rss'. split; [done |].
  destruct (appendOtherRanges_Ok myName pools' [] rss' Hrss') as (rss1 & -> & Hall').
  cbn [app]. intros o Ho. apply list_elem_of_lookup in Ho as [k Hk].
  destruct (Forall2_lookup_r _ _ _ _ _ Hall' Hk) as (p & Hp & Hpo).
  assert (Hin : p ∈ filter (fun p => lbv1.Name p <> myName) pools')
    by (apply list_elem_of_lookup; by exists k).
  apply list_elem_of_filter in Hin as [Hn Hin].
  destruct (Hconv p Hin Hn) as (o' & Ho' & Hpo').
  unfold convertsTo in Hpo, Hpo'. rewrite Hpo in Hpo'. injection Hpo' as <-. done.
Qed.

Lemma firstOtherPool_None_inv (pool : lbv1.IPPool) (pools : list lbv1.IPPool) :
  firstOtherPool pool pools = None ->
  forall q, q ∈ pools -> lbv1.Name q = lbv1.Name pool.
Proof.
  intros Hnone q Hq.
  destruct (String.eqb_spec (lbv1.Name q) (lbv1.Name pool)) as [Heq | Hne]; [done |].
  destruct (firstOtherPool_Some pool q pools Hq Hne) as (? & _ & _ & H). congruence.
Qed.

Lemma checkSelector_fewer (i i' : ipPoolValidator) (pool : lbv1.IPPool) :
  listError (ipPoolCache i) = None ->
  listError (ipPoolCache i') = None ->
  (forall p, p ∈ stored (ipPoolCache i') -> p ∈ stored (ipPoolCache i)) ->
  outcome (checkSelector i pool) = Ok tt ->
  outcome (checkSelector i' pool) = Ok tt.
Proof.
  intros Hlist Hlist' Hsub. unfold checkSelector. destruct (isGlobalIPPool pool).
  - rewrite (checkGlobalIPPool_ok i pool Hlist), (checkGlobalIPPool_ok i' pool Hlist').
    unfold outcome. cbn [snd].
    destruct (firstOtherPool pool (filter _ (stored (ipPoolCache i)))) eqn:Hfirst; [done |].
    intros _. rewrite firstOtherPool_None; [done |].
    intros q [Hq Hg]%elem_of_global_listing.
    apply (firstOtherPool_None_inv pool _ Hfirst).
    apply elem_of_global_listing. split; [by apply Hsub | done].
  - destruct (checkSelectorItself pool); [done |].
    rewrite (checkSelectorWithOthers_ok i pool Hlist),
      (checkSelectorWithOthers_ok i' pool Hlist').
    unfold outcome. cbn [snd].
    destruct (checkSelectorWithEach pool (stored (ipPoolCache i))) eqn:Heach; [done |].
    intros _.
    assert (Hnone : checkSelectorWithEach pool (stored (ipPoolCache i')) = None);
      [| by rewrite Hnone].
    apply checkSelectorWithEach_None_iff. intros p Hp.
    apply (proj1 (checkSelectorWithEach_None_iff pool _) Heach). by apply Hsub.
Qed.

(** X15.  Taking pools out of the repository never turns an acceptance
    into a rejection: a pool that [Create] accepts is accepted on every
    cache that lists its pools and stores only pools the first cache
    stores. *)
Theorem Create_accepts_with_fewer_pools (i i' : ipPoolValidator) (req : Request)
    (pool : lbv1.IPPool) :
  outcome (Create i req pool) = Ok tt ->
  listError (ipPoolCache i') = None ->
  (forall p, p ∈ stored (ipPoolCache i') -> p ∈ stored (ipPoolCache i)) ->
  outcome (Create i' req pool) = Ok tt.
Proof.
  intros Hacc Hlist' Hsub.
  apply Create_Ok_iff in Hacc
    as (Hlist & Hne & rs & others & Hconv & Hothers & Hrange & Hsel).
  apply Create_Ok_iff. split; [done |]. split; [done |].
  destruct (appendOtherRanges_fewer _ _ _ others Hsub Hothers) as (others' & Ho' & Hin).
  exists rs, others'. split; [done |]. split; [done |]. split.
  - unfold checkRange in *.
    destruct (checkRangeItself rs); [done |].
    apply checkRangeOthers_None. intros o Ho.
    apply (proj1 (checkRangeOthers_None_iff rs others) Hrange). by apply Hin.
  - by apply (checkSelector_fewer i i').
Qed.

(** ** The priority rule both ways *)

(** X16.  The duplicate-priority rule does not depend on which of two
    pools comes first.  For two pools of different names, neither marked
    global: the cross-pool check of one against a cache holding the
    other fails with the duplicate-priority error exactly when their
    priorities are equal and not zero, and so exactly when the check of
    the other against a cache holding the one does. *)
Theorem priority_rule_both_ways (p q : lbv1.IPPool) :
  lbv1.Name p <> lbv1.Name q ->
  isGlobalIPPool p = false -> isGlobalIPPool q = false ->
  (outcome (checkSelectorWithOthers
              (NewIPPoolValidator {| stored := [p]; listError := None |}) q)
   = Err (DuplicatePriorityError (lbv1.Name p))
   <-> priorityOf p <> 0%N /\ priorityOf p = priorityOf q)
  /\ (outcome (checkSelectorWithOthers
                 (NewIPPoolValidator {| stored := [p]; listError := None |}) q)
      = Err (DuplicatePriorityError (lbv1.Name p))
      <-> outcome (checkSelectorWithOthers
                     (NewIPPoolValidator {| stored := [q]; listError := None |}) p)
          = Err (DuplicatePriorityError (lbv1.Name q))).
Proof.
  intros Hname Hgp Hgq.
  assert (Hone : forall a b : lbv1.IPPool,
            lbv1.Name a <> lbv1.Name b -> isGlobalIPPool a = false ->
            (outcome (checkSelectorWithOthers
                        (NewIPPoolValidator {| stored := [a]; listError := None |}) b)
             = Err (DuplicatePriorityError (lbv1.Name a))
             <-> priorityOf a <> 0%N /\ priorityOf a = priorityOf b)).
  { intros a b Hab Hga.
    rewrite checkSelectorWithOthers_ok by done.
    cbn [NewIPPoolValidator ipPoolCache stored checkSelectorWithEach].
    unfold outcome. cbn [snd].
    assert (Hcmp : comparedWith b a) by done.
    split.
    - destruct (checkSelectorWith b a) as [e |] eqn:Hres; [| done].
      intros [= ->].
      destruct (checkSelectorWith_Some_shape b a _ Hres)
        as [_ [(Hnz & Heq & _) | (_ & _ & t & _ & _ & Hbad)]]; done.
    - intros [Hnz Heq].
      by rewrite (checkSelectorWith_same_priority b a Hcmp Hnz Heq). }
  split; [by apply Hone |].
  rewrite (Hone p q Hname Hgp), (Hone q p (not_eq_sym Hname) Hgq).
  split; intros [Hnz Heq]; split; congruence.
Qed.

(** ** The scope rule on admission *)




End Further.

(** * The properties in the concrete setting *)

Section Instances.

#[local] Existing Instance sample.env.





(** A second global pool is refused whatever its selector says: here
    priority 5 and a scope that repeats one entry. *)
Lemma checkSelector_global_pool_witness :
  checkSelector
    (sample.holding [sample.poolA; sample.globalPool "G" [] (sample.scoped 0 [])])
    (sample.globalPool "H" [] (sample.scoped 5 [sample.p1; sample.p1]))
  = ([labels.SetSelector {[ KeyGlobalIPPool := ValueTrue ]}],
     Err (DuplicateGlobalPoolError "G")).
Proof.
  destruct (checkSelector_global_pool
              (sample.holding [sample.poolA; sample.globalPool "G" [] (sample.scoped 0 [])])
              (sample.globalPool "H" [] (sample.scoped 5 [sample.p1; sample.p1])))
    as (_ & Hfirst & _ & _); [by vm_compute | done |].
  apply (Hfirst [sample.poolA] (sample.globalPool "G" [] (sample.scoped 0 [])) []).
  - reflexivity.
  - intros q Hq Hg. apply list_elem_of_singleton in Hq as ->. by vm_compute in Hg.
  - by vm_compute.
  - by vm_compute.
Defined.

(** Three ranges of which the first and the last share the address 5;
    and a candidate against a pool whose ranges lie elsewhere. *)
Lemma checkRange_overlap_detection_witness :
  (exists (i' j' : nat) (r1' r2' : allocator.Range),
      checkRange [allocator.mkRange 1 5; allocator.mkRange 10 20; allocator.mkRange 5 8] []
      = Some (RangeOverlapError r1' r2')
      /\ [allocator.mkRange 1 5; allocator.mkRange 10 20; allocator.mkRange 5 8] !! i'
         = Some r1'
      /\ [allocator.mkRange 1 5; allocator.mkRange 10 20; allocator.mkRange 5 8] !! j'
         = Some r2'
      /\ allocator.Range_Overlaps r1' r2' = true)
  /\ checkRange [allocator.mkRange 1 5; allocator.mkRange 6 9] [[allocator.mkRange 10 20]]
     = None.
Proof.
  destruct checkRange_overlap_detection as (Hself & _ & Hcross). split.
  - destruct (Hself [allocator.mkRange 1 5; allocator.mkRange 10 20; allocator.mkRange 5 8]
                [] 0%nat 2%nat (allocator.mkRange 1 5) (allocator.mkRange 5 8))
      as (i' & j' & r1' & r2' & _ & Hi & Hj & Hov & _ & Hres).
    + lia.
    + reflexivity.
    + reflexivity.
    + exists 5. split; reflexivity.
    + exists i', j', r1', r2'. done.
  - destruct (Hcross [allocator.mkRange 1 5; allocator.mkRange 6 9]
                [[allocator.mkRange 10 20]]) as [_ ->]; [| | | done].
    + repeat constructor; unfold allocator.wf; simpl; lia.
    + repeat constructor; unfold allocator.wf; simpl; lia.
    + intros o Ho a. apply list_elem_of_singleton in Ho as ->.
      unfold allocator.Contains, allocator.Range_Contains. simpl. lia.
Defined.

(** One allocated address inside the ranges. *)
Lemma checkAllocated_verdict_witness :
  checkAllocated [allocator.mkRange 167772161 167772170]
    ({[ "10.0.0.5" := "default/lb1" ]} : gmap string string) = None.
Proof.
  destruct (checkAllocated_verdict [allocator.mkRange 167772161 167772170]
              ({[ "10.0.0.5" := "default/lb1" ]} : gmap string string))
    as (Hiff & _).
  - unfold enumerates. by vm_compute.
  - apply Hiff. intros ipStr [v Hv].
    apply lookup_singleton_Some in Hv as [<- _].
    exists 167772165. split; by vm_compute.
Defined.

(** The same mapping visited in two orders: one call reports the
    address outside the ranges, the other the string that is no
    address. *)
Lemma checkAllocated_order_of_visit :
  enumerates ["10.0.0.99"; "lost"]
    ({[ "10.0.0.99" := "default/lb1"; "lost" := "default/lb2" ]} : gmap string string)
  /\ enumerates ["lost"; "10.0.0.99"]
       ({[ "10.0.0.99" := "default/lb1"; "lost" := "default/lb2" ]} : gmap string string)
  /\ checkAllocatedIn [allocator.mkRange 167772161 167772170] ["10.0.0.99"; "lost"]
     = Some (AllocatedAddressExcludedError "10.0.0.99")
  /\ checkAllocatedIn [allocator.mkRange 167772161 167772170] ["lost"; "10.0.0.99"]
     = Some (InvalidAddressError "lost").
Proof.
  assert (Hkeys : (map_to_list
                     ({[ "10.0.0.99" := "default/lb1"; "lost" := "default/lb2" ]}
                      : gmap string string)).*1
                  = ["10.0.0.99"; "lost"]) by (by vm_compute).
  unfold enumerates. rewrite Hkeys.
  split; [done |]. split; [apply perm_swap |]. split; by vm_compute.
Qed.

(** Two stored pools of priority 7 against a pool of priority 7. *)
Lemma cross_pool_priority_rule_witness :
  checkSelectorWithOthers
    (sample.holding [sample.poolA; sample.pool "P" [] (sample.scoped 7 [sample.p2])])
    (sample.pool "Q" [] (sample.scoped 7 [sample.p1]))
  = ([labels.Everything], Err (DuplicatePriorityError "P")).
Proof.
  destruct (cross_pool_priority_rule
              (sample.holding [sample.poolA; sample.pool "P" [] (sample.scoped 7 [sample.p2])])
              (sample.pool "Q" [] (sample.scoped 7 [sample.p1]))
              (sample.pool "P" [] (sample.scoped 7 [sample.p2])))
    as [Hsame _].
  - reflexivity.
  - apply list_elem_of_further, list_elem_of_here.
  - split; [done | by vm_compute].
  - destruct Hsame as (_ & _ & Hfirst); [done | done |].
    apply (Hfirst [sample.poolA] []); [reflexivity |].
    intros q Hq _. apply list_elem_of_singleton in Hq as ->. done.
Defined.

(** A pool under deletion with no ranges, an allocation that is no
    address, and a cache whose listings fail. *)
Lemma Update_deleting_accepts_witness :
  Update
    {| ipPoolCache := {| stored := []; listError := Some (ExternalError "cache") |} |}
    tt sample.poolA
    (sample.deleting
       (sample.withAllocated {[ "lost" := "default/lb1" ]}
          (sample.pool "D" [] (sample.scoped 0 [sample.p1; sample.p1]))))
  = ([], Ok tt).
Proof. apply Update_deleting_accepts. done. Defined.

(** Overlapping ranges and an allocation outside them: the error is the
    overlap checker's. *)
Lemma empty_ranges_first_then_checks_in_order_witness :
  Create (sample.holding [sample.poolA]) tt (sample.pool "E" [] (sample.scoped 0 []))
  = ([], Err (CreateError "E" EmptyRangeError))
  /\ Update (sample.holding [sample.poolA]) tt sample.poolA
       (sample.pool "E" [] (sample.scoped 0 []))
     = ([], Err (UpdateError "E" EmptyRangeError))
  /\ Update (sample.holding [sample.poolA]) tt sample.poolA
       (sample.withAllocated {[ "10.0.0.99" := "default/lb1" ]}
          (sample.pool "F" [sample.range "10.0.0.50" "10.0.0.60";
                            sample.range "10.0.0.55" "10.0.0.70"]
             (sample.scoped 0 [sample.p2])))
     = ([labels.Everything],
        Err (UpdateError "F"
               (RangeOverlapError (allocator.mkRange 167772210 167772220)
                  (allocator.mkRange 167772215 167772230)))).
Proof.
  split; [| split].
  - apply (empty_ranges_first_then_checks_in_order (E := sample.env)
             (sample.holding [sample.poolA]) tt sample.poolA). done.
  - apply (empty_ranges_first_then_checks_in_order (E := sample.env)
             (sample.holding [sample.poolA]) tt sample.poolA); done.
  - destruct (empty_ranges_first_then_checks_in_order (E := sample.env)
                (sample.holding [sample.poolA]) tt sample.poolA
                (sample.withAllocated {[ "10.0.0.99" := "default/lb1" ]}
                   (sample.pool "F" [sample.range "10.0.0.50" "10.0.0.60";
                                     sample.range "10.0.0.55" "10.0.0.70"]
                      (sample.scoped 0 [sample.p2]))))
      as (_ & _ & Horder).
    destruct (Horder [allocator.mkRange 167772210 167772220;
                      allocator.mkRange 167772215 167772230]
                [labels.Everything]
                [[allocator.mkRange 167772161 167772170]])
      as (Hrange & _); [done | done | by vm_compute | by vm_compute |].
    apply Hrange. by vm_compute.
Defined.

End Instances.

(** * The further properties in the concrete setting *)

Section FurtherInstances.

#[local] Existing Instance sample.env.

(** Two ranges apart from each other and from the other pool. *)
Lemma checkRange_accepts_iff_witness :
  pairwiseApart [allocator.mkRange 1 5; allocator.mkRange 6 9]
  /\ forall o, o ∈ [[allocator.mkRange 10 20]] ->
       allocator.disjoint [allocator.mkRange 1 5; allocator.mkRange 6 9] o.
Proof.
  destruct (checkRange_accepts_iff [allocator.mkRange 1 5; allocator.mkRange 6 9]
              [[allocator.mkRange 10 20]]) as (Hsound & _ & _).
  apply Hsound. reflexivity.
Defined.

Lemma checkRange_order_irrelevant_witness :
  checkRange [allocator.mkRange 1 5; allocator.mkRange 6 9] [[allocator.mkRange 10 20]]
  = None
  <-> checkRange [allocator.mkRange 6 9; allocator.mkRange 1 5] [[allocator.mkRange 10 20]]
      = None.
Proof.
  apply checkRange_order_irrelevant; [apply perm_swap | reflexivity].
Defined.

(** The other pools of A in a cache holding A and B: the ranges of B. *)
Lemma getOtherPoolsRanges_result_witness :
  exists rss,
    outcome (getOtherPoolsRanges (sample.holding [sample.poolA; sample.poolB]) "A")
    = Ok rss
    /\ Forall2 convertsTo
         (filter (fun p => lbv1.Name p <> "A") [sample.poolA; sample.poolB]) rss.
Proof.
  destruct (getOtherPoolsRanges_result
              (sample.holding [sample.poolA; sample.poolB]) "A" eq_refl)
    as (_ & Hok & _).
  apply Hok. intros p Hp Hn.
  apply elem_of_cons in Hp as [-> | Hp]; [by destruct Hn |].
  apply list_elem_of_singleton in Hp as ->.
  exists [allocator.mkRange 167772171 167772180]. by vm_compute.
Defined.

(** The unscoped pool U next to A. *)
Lemma Create_accepts_sound_witness :
  listError (ipPoolCache (sample.holding [sample.poolA])) = None
  /\ lbv1.Ranges (lbv1.Spec sample.poolU) <> []
  /\ exists rs, convertsTo sample.poolU rs /\ pairwiseApart rs
       /\ (forall p, p ∈ stored (ipPoolCache (sample.holding [sample.poolA])) ->
             lbv1.Name p <> lbv1.Name sample.poolU ->
             exists o, convertsTo p o /\ allocator.disjoint rs o)
       /\ outcome (checkSelector (sample.holding [sample.poolA]) sample.poolU) = Ok tt.
Proof.
  apply (Create_accepts_sound (E := sample.env) (sample.holding [sample.poolA]) tt).
  by vm_compute.
Defined.

Lemma Update_accepts_iff_witness :
  outcome (Update (sample.holding [sample.poolA]) tt sample.poolA
             (sample.withAllocated {[ "10.0.0.35" := "default/lb1" ]} sample.poolU))
  = Ok tt
  <-> outcome (Create (sample.holding [sample.poolA]) tt
                 (sample.withAllocated {[ "10.0.0.35" := "default/lb1" ]} sample.poolU))
      = Ok tt
      /\ exists rs,
           convertsTo
             (sample.withAllocated {[ "10.0.0.35" := "default/lb1" ]} sample.poolU) rs
           /\ checkAllocated rs
                (lbv1.Allocated
                   (lbv1.Status
                      (sample.withAllocated {[ "10.0.0.35" := "default/lb1" ]}
                         sample.poolU)))
              = None.
Proof.
  destruct (Update_accepts_iff (E := sample.env) (sample.holding [sample.poolA]) tt
              sample.poolA
              (sample.withAllocated {[ "10.0.0.35" := "default/lb1" ]} sample.poolU)
              eq_refl) as [Hiff _].
  exact Hiff.
Defined.

(** A pool whose range does not parse; and a sound pool next to it. *)
Lemma conversion_failures_witness :
  Create (sample.holding [sample.poolA]) tt
    (sample.pool "X" [sample.range "10.0.0.300" "10.0.0.5"] (sample.scoped 0 []))
  = ([], Err (CreateError "X" (ExternalError "invalid range")))
  /\ Create
       (sample.holding
          [sample.poolA;
           sample.pool "X" [sample.range "10.0.0.300" "10.0.0.5"] (sample.scoped 0 [])])
       tt sample.poolU
     = ([labels.Everything], Err (CreateError "U" (ExternalError "invalid range"))).
Proof.
  split.
  - destruct (conversion_failures (E := sample.env) (sample.holding [sample.poolA]) tt
                sample.poolA
                (sample.pool "X" [sample.range "10.0.0.300" "10.0.0.5"]
                   (sample.scoped 0 []))) as [Hown _]; [done |].
    apply Hown. by vm_compute.
  - destruct (conversion_failures (E := sample.env)
                (sample.holding
                   [sample.poolA;
                    sample.pool "X" [sample.range "10.0.0.300" "10.0.0.5"]
                      (sample.scoped 0 [])])
                tt sample.poolA sample.poolU) as [_ Hother]; [done |].
    apply (Hother [allocator.mkRange 167772191 167772200] [sample.poolA]
             (sample.pool "X" [sample.range "10.0.0.300" "10.0.0.5"] (sample.scoped 0 []))
             [] (ExternalError "invalid range")).
    + by vm_compute.
    + reflexivity.
    + reflexivity.
    + intros q Hq _. apply list_elem_of_singleton in Hq as ->.
      exists [allocator.mkRange 167772161 167772170]. by vm_compute.
    + done.
    + by vm_compute.
Defined.

Lemma listing_failure_witness :
  Create
    {| ipPoolCache := {| stored := []; listError := Some (ExternalError "cache") |} |}
    tt sample.poolU
  = ([labels.Everything], Err (CreateError "U" (ExternalError "cache"))).
Proof.
  destruct (listing_failure (E := sample.env)
              {| ipPoolCache :=
                   {| stored := []; listError := Some (ExternalError "cache") |} |}
              tt sample.poolA sample.poolU (ExternalError "cache") eq_refl)
    as (Hwrapped & _).
  apply (Hwrapped [allocator.mkRange 167772191 167772200]); [done | by vm_compute].
Defined.

Lemma cache_listings_witness :
  reads (Create (sample.holding [sample.poolA]) tt sample.poolU)
  = [labels.Everything; labels.Everything].
Proof.
  destruct (cache_listings (E := sample.env) (sample.holding [sample.poolA]) tt
              sample.poolA sample.poolU) as (_ & _ & Haccepted & _).
  apply Haccepted. by vm_compute.
Defined.

Lemma cross_pool_check_accepts_iff_witness :
  outcome (checkSelectorWithOthers (sample.holding [sample.poolA])
             (sample.pool "Q" [] (sample.scoped 7 [sample.p1])))
  = Ok tt.
Proof.
  destruct (cross_pool_check_accepts_iff (sample.holding [sample.poolA])
              (sample.pool "Q" [] (sample.scoped 7 [sample.p1])) eq_refl)
    as [Hiff _].
  apply Hiff. intros p Hp _. apply list_elem_of_singleton in Hp as ->.
  split; [intros Hnz; by destruct Hnz | intros _ Hz; done].
Defined.

Lemma selector_check_keeps_global_apart_witness :
  checkSelector
    (NewIPPoolValidator
       (withoutGlobal
          (ipPoolCache
             (sample.holding
                [sample.globalPool "G" [] (sample.scoped 0 []); sample.poolA]))))
    sample.poolU
  = checkSelector
      (sample.holding [sample.globalPool "G" [] (sample.scoped 0 []); sample.poolA])
      sample.poolU.
Proof.
  destruct (selector_check_keeps_global_apart
              (sample.holding
                 [sample.globalPool "G" [] (sample.scoped 0 []); sample.poolA])
              sample.poolU) as [Hscoped _].
  apply Hscoped. by vm_compute.
Defined.

(** Two unscoped pools of priority 0 on one network. *)
Lemma unscoped_pool_passes_witness :
  checkSelector (sample.holding [sample.poolU])
    (sample.pool "V" [sample.range "10.0.0.41" "10.0.0.50"] (sample.scoped 0 []))
  = ([labels.Everything], Ok tt).
Proof.
  apply unscoped_pool_passes; [reflexivity | by vm_compute | reflexivity | reflexivity].
Defined.

Lemma checkAllocated_monotone_witness :
  checkAllocated [allocator.mkRange 167772161 167772170; allocator.mkRange 1 2]
    ({[ "10.0.0.5" := "default/lb1" ]} : gmap string string) = None
  /\ checkAllocated [allocator.mkRange 167772161 167772170]
       (∅ : gmap string string) = None.
Proof.
  destruct (checkAllocated_monotone (E := sample.env)
              [allocator.mkRange 167772161 167772170]
              [allocator.mkRange 167772161 167772170; allocator.mkRange 1 2]
              ({[ "10.0.0.5" := "default/lb1" ]} : gmap string string) ∅)
    as [Hgrow Hrelease]; [by vm_compute |].
  split.
  - apply Hgrow. intros r Hr. apply list_elem_of_singleton in Hr as ->.
    apply list_elem_of_here.
  - apply Hrelease.
    + unfold enumerates. by vm_compute.
    + unfold enumerates. by vm_compute.
    + apply map_empty_subseteq.
Defined.

Lemma Create_accepts_complete_witness :
  outcome (Create (sample.holding [sample.poolA]) tt sample.poolU) = Ok tt.
Proof.
  apply (Create_accepts_complete (E := sample.env) (sample.holding [sample.poolA]) tt
           sample.poolU [allocator.mkRange 167772191 167772200]).
  - reflexivity.
  - done.
  - by vm_compute.
  - repeat constructor. unfold allocator.wf. simpl. lia.
  - intros i j r1 r2 Hne Hi Hj.
    destruct i as [| i]; destruct j as [| j]; done.
  - intros p Hp _. apply list_elem_of_singleton in Hp as ->.
    exists [allocator.mkRange 167772161 167772170].
    split; [by vm_compute |]. split.
    + repeat constructor. unfold allocator.wf. simpl. lia.
    + intros a. unfold allocator.Contains, allocator.Range_Contains. simpl. lia.
  - by vm_compute.
Defined.

Lemma Create_accepts_with_fewer_pools_witness :
  outcome (Create (sample.holding [sample.poolB]) tt sample.poolU) = Ok tt.
Proof.
  apply (Create_accepts_with_fewer_pools (E := sample.env)
           (sample.holding [sample.poolA; sample.poolB]) (sample.holding [sample.poolB])
           tt sample.poolU).
  - by vm_compute.
  - reflexivity.
  - intros p Hp. by apply list_elem_of_further.
Defined.

Lemma priority_rule_both_ways_witness :
  outcome (checkSelectorWithOthers
             (NewIPPoolValidator
                {| stored := [sample.pool "P" [] (sample.scoped 7 [sample.p2])];
                   listError := None |})
             (sample.pool "Q" [] (sample.scoped 7 [sample.p1])))
  = Err (DuplicatePriorityError "P")
  <-> outcome (checkSelectorWithOthers
                 (NewIPPoolValidator
                    {| stored := [sample.pool "Q" [] (sample.scoped 7 [sample.p1])];
                       listError := None |})
                 (sample.pool "P" [] (sample.scoped 7 [sample.p2])))
      = Err (DuplicatePriorityError "Q").
Proof.
  destruct (priority_rule_both_ways
              (sample.pool "P" [] (sample.scoped 7 [sample.p2]))
              (sample.pool "Q" [] (sample.scoped 7 [sample.p1])))
    as [_ Hboth]; [done | by vm_compute | by vm_compute |].
  exact Hboth.
Defined.

End FurtherInstances.
